(** * gkvlite: the Collection of collection.go, embedded in Rocq

    The development follows [collection.go]: the data the file declares
    ([Collection], [rootNodeLoc]) and uses ([Item], [node], [nodeLoc],
    [itemLoc], [ploc]), a small state-and-panic monad for the code that
    mutates the collection under [rootLock], and then one function per Go
    function.  Code of the package that lives in other files (the treap
    algebra, the pools, the lazy reads) is either a field of the [Store]
    class or a definition marked [Modelled from the spec]. *)

From Stdlib Require Import ZArith List Lia Bool.
From stdpp Require Import base option gmap list.

Local Open Scope Z_scope.

(** ** Machine integers *)

(** [int64] arithmetic wraps around (Go's [refs++], [refs--]). *)
Definition int64_wrap (z : Z) : Z := (z + 2 ^ 63) mod 2 ^ 64 - 2 ^ 63.

(** [uint64] arithmetic wraps around (sizes and counts of a node). *)
Definition uint64_wrap (z : Z) : Z := z mod 2 ^ 64.

Definition int64_range (z : Z) : Prop := - 2 ^ 63 <= z < 2 ^ 63.

(** ** Data model *)

(** A [[]byte]; where the code tests a slice against [nil] the slice is an
    [option bytes] and [None] is [nil]. *)
Definition bytes := list Byte.byte.

Definition len (b : option bytes) : Z :=
  match b with
  | None => 0
  | Some l => Z.of_nat (length l)
  end.

(** A file location: the pair of the JSON surface. *)
Record ploc := { Offset : Z; Length : Z }.

(** [Item]: [Priority] is an [int32]. *)
Record Item := { Key : option bytes; Val : option bytes; Priority : Z }.

(** An item cell under a node, in the forms of the data model: no item,
    an in-memory item, an item that is both persisted and in memory, and
    a persisted item that is not in memory.  For the last form the cell
    carries what the store yields when it is read at that location: the
    item ([IL_disk]) or an I/O error ([IL_ioerr]). *)
Inductive itemLoc : Type :=
  | IL_empty
  | IL_mem (i : Item)
  | IL_cached (l : ploc) (i : Item)
  | IL_disk (l : ploc) (i : Item)
  | IL_ioerr (l : ploc).

(** [node] and [nodeLoc].  A [node] holds its two edges by value; [addr]
    is the address of the node, by which [*node] pointers are compared.
    An edge is empty, an in-memory node, a persisted node with its
    in-memory copy, or a persisted node that is not in memory, together
    with what the store yields at that location. *)
Inductive node : Type :=
  | mk_node (addr : nat) (item : itemLoc) (left right : nodeLoc)
            (numNodes numBytes : Z)
with nodeLoc : Type :=
  | NL_empty
  | NL_mem (n : node)
  | NL_cached (l : ploc) (n : node)
  | NL_disk (l : ploc) (n : node)
  | NL_ioerr (l : ploc).

Scheme node_mut := Induction for node Sort Prop
  with nodeLoc_mut := Induction for nodeLoc Sort Prop.
Combined Scheme node_nodeLoc_ind from node_mut, nodeLoc_mut.

Definition addr (n : node) : nat := let (a, _, _, _, _, _) := n in a.
Definition item (n : node) : itemLoc := let (_, i, _, _, _, _) := n in i.
Definition left (n : node) : nodeLoc := let (_, _, l, _, _, _) := n in l.
Definition right (n : node) : nodeLoc := let (_, _, _, r, _, _) := n in r.
Definition numNodes (n : node) : Z := let (_, _, _, _, c, _) := n in c.
Definition numBytes (n : node) : Z := let (_, _, _, _, _, b) := n in b.

(** Addresses of [rootNodeLoc]s and of [Collection]s; a pointer that may
    be [nil] is an [option]. *)
Definition rptr := nat.
Definition cptr := nat.

Record rootNodeLoc := {
  refs : Z;
  root : nodeLoc;
  next : option rptr;
  chainedCollection : option cptr;
  chainedRootNodeLoc : option rptr;
  reclaimLater : option node * option node
}.

(** Calls into the pools and the store, in the order they are made. *)
Inductive event : Type :=
  | EvReclaimNodes (c : cptr) (n : option node)
                   (later : option (option node * option node))
  | EvFreeNodeLoc (c : cptr) (nl : nodeLoc)
  | EvFreeRootNodeLoc (c : cptr) (r : rptr)
  | EvMarkReclaimable (c : cptr) (n : option node)
  | EvItemWrite (c : cptr) (i : itemLoc)
  | EvFlushNodes (nl : nodeLoc).

(** The collection [t] with the objects it points to: its [root] field,
    the heap of [rootNodeLoc]s, the next free node address, and the
    calls made so far. *)
Record State := {
  c_root : option rptr;
  heap : gmap rptr rootNodeLoc;
  next_addr : nat;
  log : list event
}.

(** ** Panics and the monad of the Go code *)

Inductive panic : Type :=
  | ChainAlreadyTaken
  | NilDereference
  | InvalidPointer (r : rptr)
  | StackOverflow.

Inductive outcome (A : Type) : Type :=
  | Done (a : A) (s : State)
  | Panicked (p : panic) (s : State).
Arguments Done {A} a s.
Arguments Panicked {A} p s.

Definition M (A : Type) : Type := State -> outcome A.

Definition ret {A} (a : A) : M A := fun s => Done a s.

Definition bind {A B} (m : M A) (k : A -> M B) : M B :=
  fun s =>
    match m s with
    | Done a s' => k a s'
    | Panicked p s' => Panicked p s'
    end.

Definition throw {A} (p : panic) : M A := fun s => Panicked p s.

Declare Scope go_scope.
Delimit Scope go_scope with go.
Notation "x <- m ;; k" := (bind m (fun x => k))
  (at level 100, m at next level, right associativity) : go_scope.
Notation "m ;;; k" := (bind m (fun _ => k))
  (at level 100, right associativity) : go_scope.
Local Open Scope go_scope.

(** [defer d] in front of [body]: [d] runs when [body] returns and also
    when it panics; a panic of [d] replaces the one in flight. *)
Definition defer {A} (d : M unit) (body : M A) : M A :=
  fun s =>
    match body s with
    | Done a s' =>
        match d s' with
        | Done _ s'' => Done a s''
        | Panicked p s'' => Panicked p s''
        end
    | Panicked p s' =>
        match d s' with
        | Done _ s'' => Panicked p s''
        | Panicked p' s'' => Panicked p' s''
        end
    end.

Definition state_of {A} (o : outcome A) : State :=
  match o with
  | Done _ s => s
  | Panicked _ s => s
  end.

(** *** Access to the state *)

Definition get_root : M (option rptr) := fun s => Done (c_root s) s.

Definition set_root (r : option rptr) : M unit :=
  fun s => Done tt {| c_root := r; heap := heap s;
                      next_addr := next_addr s; log := log s |}.

Definition set_heap (h : gmap rptr rootNodeLoc) (s : State) : State :=
  {| c_root := c_root s; heap := h;
     next_addr := next_addr s; log := log s |}.

(** Reading through a [*rootNodeLoc]. *)
Definition load (r : option rptr) : M rootNodeLoc :=
  fun s =>
    match r with
    | None => Panicked NilDereference s
    | Some a =>
        match heap s !! a with
        | Some R => Done R s
        | None => Panicked (InvalidPointer a) s
        end
    end.

(** Writing the fields of the [rootNodeLoc] at [r]. *)
Definition update (r : option rptr) (f : rootNodeLoc -> rootNodeLoc) : M unit :=
  R <- load r ;;
  fun s =>
    match r with
    | None => Panicked NilDereference s
    | Some a => Done tt (set_heap (<[a := f R]> (heap s)) s)
    end.

Definition emit (e : event) : M unit :=
  fun s => Done tt {| c_root := c_root s; heap := heap s;
                      next_addr := next_addr s; log := log s ++ [e] |}.

Definition with_refs (z : Z) (R : rootNodeLoc) : rootNodeLoc :=
  {| refs := z; root := root R; next := next R;
     chainedCollection := chainedCollection R;
     chainedRootNodeLoc := chainedRootNodeLoc R;
     reclaimLater := reclaimLater R |}.

Definition with_chainedCollection (c : option cptr) (R : rootNodeLoc) : rootNodeLoc :=
  {| refs := refs R; root := root R; next := next R;
     chainedCollection := c;
     chainedRootNodeLoc := chainedRootNodeLoc R;
     reclaimLater := reclaimLater R |}.

Definition with_chainedRootNodeLoc (r : option rptr) (R : rootNodeLoc) : rootNodeLoc :=
  {| refs := refs R; root := root R; next := next R;
     chainedCollection := chainedCollection R;
     chainedRootNodeLoc := r;
     reclaimLater := reclaimLater R |}.

Definition with_reclaimLater (l : option node * option node) (R : rootNodeLoc) : rootNodeLoc :=
  {| refs := refs R; root := root R; next := next R;
     chainedCollection := chainedCollection R;
     chainedRootNodeLoc := chainedRootNodeLoc R;
     reclaimLater := l |}.

(** ** Errors *)

(** Errors that come out of the store: a failed read or write at a
    location, and a materialised item without a key. *)
Inductive store_error : Type :=
  | IOError (l : ploc)
  | CorruptionError.

(** The [error] values [collection.go] returns: the ones it makes itself
    with [errors.New] and [fmt.Errorf], and the ones it passes on. *)
Inductive error : Type :=
  | ErrKeyValMissingOrTooLong   (* "Item.Key/Val missing or too long" *)
  | ErrPriorityNegative         (* "Item.Priority must be non-negative" *)
  | ErrConcurrentMutation       (* "concurrent mutation attempted" *)
  | ErrConcurrentDelete (key : bytes) (* "concurrent delete, key: %v" *)
  | ErrMissingItem              (* "missing item after item.read() in GetItem()" *)
  | ErrUnmarshalConcurrent      (* "concurrent mutation during UnmarshalJSON()." *)
  | ErrJSON                     (* the error of json.Unmarshal *)
  | ErrStore (e : store_error).

Definition is_validation_error (e : option error) : bool :=
  match e with
  | Some ErrKeyValMissingOrTooLong | Some ErrPriorityNegative => true
  | _ => false
  end.

(** ** The parts of the package outside collection.go *)

(** What [collection.go] calls and does not define.  The treap algebra
    draws fresh nodes, so [union], [split] and [join] take the next free
    node address and return the new one.  [reclaim_scan n later] is the
    content [reclaimNodes_unlocked] leaves in the array [later] it was
    handed; [item_write] and [flushNodes] are the results of the store's
    writes; [json_Unmarshal] decodes a location and [readNode] is the
    store's content at a location. *)
Class Store := {
  compare : bytes -> bytes -> Z;
  union : nodeLoc -> nodeLoc -> nat -> (nodeLoc * option store_error) * nat;
  split : nodeLoc -> bytes -> nat ->
          (nodeLoc * nodeLoc * nodeLoc * option store_error) * nat;
  join : nodeLoc -> nodeLoc -> nat -> (nodeLoc * option store_error) * nat;
  reclaim_scan : option node -> option node * option node ->
                 option node * option node;
  item_write : itemLoc -> option store_error;
  flushNodes : nodeLoc -> option store_error;
  json_Unmarshal : bytes -> option ploc;
  ploc_empty : ploc;
  readNode : ploc -> option node
}.

(** Modelled from the spec: [nodeLoc.Loc], the persisted location of an
    edge (section 3, NodeLoc); the locations held by [NL_cached],
    [NL_disk] and [NL_ioerr] are non-sentinel ones. *)
Definition Loc (n : nodeLoc) : option ploc :=
  match n with
  | NL_empty | NL_mem _ => None
  | NL_cached l _ | NL_disk l _ | NL_ioerr l => Some l
  end.

(** Modelled from the spec: [nodeLoc.Node], the in-memory node of an edge. *)
Definition Node (n : nodeLoc) : option node :=
  match n with
  | NL_mem nd | NL_cached _ nd => Some nd
  | NL_empty | NL_disk _ _ | NL_ioerr _ => None
  end.

(** Modelled from the spec: [ploc.isEmpty] on the result of [Loc]. *)
Definition ploc_isEmpty (l : option ploc) : bool :=
  match l with
  | None => true
  | Some _ => false
  end.

(** Modelled from the spec: [nodeLoc.isEmpty], "true iff no in-memory
    value and no non-empty location" (section 4.1). *)
Definition isEmpty (n : nodeLoc) : bool :=
  ploc_isEmpty (Loc n) && match Node n with None => true | Some _ => false end.

(** Modelled from the spec: [nodeLoc.read], "materialize and return the
    underlying Node; may trigger a store read; fails with IOError from
    the store" (section 4.1). *)
Definition read (n : nodeLoc) : option node * option store_error :=
  match n with
  | NL_empty => (None, None)
  | NL_mem nd | NL_cached _ nd | NL_disk _ nd => (Some nd, None)
  | NL_ioerr l => (None, Some (IOError l))
  end.

(** Modelled from the spec: [itemLoc.Loc]. *)
Definition item_Loc (i : itemLoc) : option ploc :=
  match i with
  | IL_empty | IL_mem _ => None
  | IL_cached l _ | IL_disk l _ | IL_ioerr l => Some l
  end.

Definition without_value (i : Item) : Item :=
  {| Key := Key i; Val := None; Priority := Priority i |}.

(** Modelled from the spec: [itemLoc.read], "materializing the item,
    optionally skipping the value" (section 6, Item contract). *)
Definition item_read (i : itemLoc) (withValue : bool)
  : option Item * option store_error :=
  match i with
  | IL_empty => (None, None)
  | IL_mem it | IL_cached _ it => (Some it, None)
  | IL_disk _ it => (Some (if withValue then it else without_value it), None)
  | IL_ioerr l => (None, Some (IOError l))
  end.

(** Modelled from the spec: [Item.NumValBytes], "the serialized value
    size" (section 6). *)
Definition NumValBytes (i : Item) : Z := len (Val i).

(** Modelled from the spec: [mkNodeLoc], an edge to the in-memory node
    [n], the empty edge for [nil]. *)
Definition mkNodeLoc (n : option node) : nodeLoc :=
  match n with
  | None => NL_empty
  | Some nd => NL_mem nd
  end.

Definition with_next_addr (a : nat) (s : State) : State :=
  {| c_root := c_root s; heap := heap s;
     next_addr := a; log := log s |}.

(** Modelled from the spec: [mkNode], the constructor of section 4.2,
    "(item, left, right, subtreeCount, subtreeBytes)", at a fresh address. *)
Definition mkNode (i : itemLoc) (l r : nodeLoc) (nn nb : Z) : M node :=
  fun s => Done (mk_node (next_addr s) i l r nn nb)
                (with_next_addr (S (next_addr s)) s).

(** The assignment [n.item.item = unsafe.Pointer(item)]. *)
Definition set_item (n : node) (i : Item) : node :=
  mk_node (addr n)
          (match item n with
           | IL_empty | IL_mem _ => IL_mem i
           | IL_cached l _ | IL_disk l _ | IL_ioerr l => IL_cached l i
           end)
          (left n) (right n) (numNodes n) (numBytes n).

(** Modelled from the spec: [mkRootNodeLoc], "creating a new RootRef
    initializes refs = 1" (section 4.5), at a fresh address of the heap. *)
Definition mkRootNodeLoc (r : nodeLoc) : M (option rptr) :=
  fun s =>
    let a := fresh (dom (heap s)) in
    Done (Some a)
         (set_heap (<[a := {| refs := 1; root := r; next := None;
                              chainedCollection := None;
                              chainedRootNodeLoc := None;
                              reclaimLater := (None, None) |}]> (heap s)) s).

(** The pool functions are known by their calls only. *)
Definition freeNodeLoc (t : cptr) (nl : nodeLoc) : M unit :=
  emit (EvFreeNodeLoc t nl).

Definition freeRootNodeLoc (t : cptr) (r : option rptr) : M unit :=
  match r with
  | None => ret tt
  | Some a => emit (EvFreeRootNodeLoc t a)
  end.

Definition markReclaimable (t : cptr) (n : option node) : M unit :=
  emit (EvMarkReclaimable t n).

Section Collection.

Context {St : Store}.

(** The collection under study, and what other goroutines do to the
    state while this one runs outside [rootLock]. *)
Variable t : cptr.
Variable others : State -> State.

Definition yield : M unit := fun s => Done tt (others s).

(** [reclaimNodes_unlocked(n, &r.reclaimLater)] and
    [reclaimNodes_unlocked(n, nil)]. *)
Definition reclaimNodes_unlocked (c : cptr) (n : option node)
    (later : option (option rptr)) : M unit :=
  match later with
  | None => emit (EvReclaimNodes c n None)
  | Some r =>
      R <- load r ;;
      emit (EvReclaimNodes c n (Some (reclaimLater R))) ;;;
      update r (with_reclaimLater (reclaim_scan n (reclaimLater R)))
  end.

Definition lift_alloc {A} (f : nat -> A * nat) : M A :=
  fun s => let (a, k) := f (next_addr s) in Done a (with_next_addr k s).

(** *** rootCAS, rootAddRef, rootDecRef *)

Definition ptr_eqb (a b : option rptr) : bool :=
  match a, b with
  | None, None => true
  | Some x, Some y => Nat.eqb x y
  | _, _ => false
  end.

Definition is_nil {A} (p : option A) : bool :=
  match p with
  | None => true
  | Some _ => false
  end.

Definition rootCAS (prev next : option rptr) : M bool :=
  cur <- get_root ;;
  if negb (ptr_eqb cur prev) then ret false
  else
    set_root next ;;;
    match prev with
    | None => ret true
    | Some _ =>
        P <- load prev ;;
        if refs P >? 2 then
          if negb (is_nil (chainedCollection P))
             || negb (is_nil (chainedRootNodeLoc P))
          then throw ChainAlreadyTaken
          else
            update prev (with_chainedCollection (Some t)) ;;;
            cur' <- get_root ;;
            update prev (with_chainedRootNodeLoc cur') ;;;
            cur'' <- get_root ;;
            update cur'' (fun R => with_refs (int64_wrap (refs R + 1)) R) ;;;
            ret true
        else ret true
    end.

Definition rootAddRef : M (option rptr) :=
  cur <- get_root ;;
  update cur (fun R => with_refs (int64_wrap (refs R + 1)) R) ;;;
  cur' <- get_root ;;
  ret cur'.

Definition reclaim_slot (c : cptr) (r : option rptr) (i : nat) : M unit :=
  R <- load r ;;
  match (if Nat.eqb i 0 then fst (reclaimLater R) else snd (reclaimLater R)) with
  | None => ret tt
  | Some n => reclaimNodes_unlocked c (Some n) None
  end.

(** The recursion follows the chain; [fuel] bounds its depth. *)
Fixpoint rootDecRef_unlocked (fuel : nat) (c : cptr) (r : option rptr) : M unit :=
  match fuel with
  | O => throw StackOverflow
  | S fuel' =>
      update r (fun R => with_refs (int64_wrap (refs R - 1)) R) ;;;
      R <- load r ;;
      if refs R >? 0 then ret tt
      else
        match chainedCollection R, chainedRootNodeLoc R with
        | Some c', Some r' => rootDecRef_unlocked fuel' c' (Some r')
        | _, _ => ret tt
        end ;;;
        R1 <- load r ;;
        reclaimNodes_unlocked c (Node (root R1)) (Some r) ;;;
        reclaim_slot c r 0 ;;;
        reclaim_slot c r 1 ;;;
        R2 <- load r ;;
        freeNodeLoc c (root R2) ;;;
        freeRootNodeLoc c r
  end.

(** A chain cannot be longer than the heap unless it is a cycle, on
    which the recursion of the Go code does not return. *)
Definition rootDecRef (r : option rptr) : M unit :=
  fun s => rootDecRef_unlocked (S (size (heap s))) t r s.

(** *** closeCollection *)

Definition closeCollection : M unit :=
  r <- get_root ;;
  set_root None ;;;
  if is_nil r then ret tt else rootDecRef r.

(** *** GetItem, Get *)

Definition of_store (e : option store_error) : option error :=
  match e with
  | None => None
  | Some x => Some (ErrStore x)
  end.

(** The [for] loop of [GetItem]; the outer [match] is [n.read(t.store)]
    followed by the test [err != nil || n.isEmpty() || nNode == nil]
    (lemma [GetItem_loop_read]). *)
Fixpoint GetItem_loop (key : bytes) (withValue : bool) (n : nodeLoc)
  : option Item * option error :=
  match n with
  | NL_ioerr l => (None, Some (ErrStore (IOError l)))
  | NL_empty => (None, None)
  | NL_mem nNode | NL_cached _ nNode | NL_disk _ nNode =>
      let i := item nNode in
      match item_read i false with
      | (_, Some err) => (None, Some (ErrStore err))
      | (None, None) => (None, Some ErrMissingItem)
      | (Some iItem, None) =>
          match Key iItem with
          | None => (None, Some ErrMissingItem)
          | Some k =>
              let c := compare key k in
              if c <? 0 then GetItem_loop key withValue (left nNode)
              else if c >? 0 then GetItem_loop key withValue (right nNode)
              else if withValue then
                match item_read i withValue with
                | (_, Some err) => (None, Some (ErrStore err))
                | (iItem', None) => (iItem', None)
                end
              else (Some iItem, None)
          end
      end
  end.

Definition GetItem (key : bytes) (withValue : bool)
  : M (option Item * option error) :=
  rnl <- rootAddRef ;;
  defer (rootDecRef rnl)
    (R <- load rnl ;;
     let n := root R in
     ret (GetItem_loop key withValue n)).

Definition Get (key : bytes) : M (option bytes * option error) :=
  got <- GetItem key true ;;
  let '(i, err) := got in
  if negb (is_nil err) then ret (None, err)
  else
    match i with
    | Some it => ret (Val it, None)
    | None => ret (None, None)
    end.

(** *** SetItem, Set *)

Definition set_reclaimLater (i : nat) (n : option node)
    (l : option node * option node) : option node * option node :=
  if Nat.eqb i 0 then (n, snd l) else (fst l, n).

Definition SetItem (item : Item) : M (option error) :=
  if is_nil (Key item) || (len (Key item) >? 65535) || (len (Key item) =? 0)
     || is_nil (Val item)
  then ret (Some ErrKeyValMissingOrTooLong)
  else if Priority item <? 0 then ret (Some ErrPriorityNegative)
  else
    rnl <- rootAddRef ;;
    defer (rootDecRef rnl)
      (R <- load rnl ;;
       let root := root R in
       yield ;;;
       n <- mkNode IL_empty NL_empty NL_empty 1
              (uint64_wrap (len (Key item) + NumValBytes item)) ;;
       let n := set_item n item in
       let nloc := mkNodeLoc (Some n) in
       res <- lift_alloc (union root nloc) ;;
       let '(r, err) := res in
       if negb (is_nil err) then ret (of_store err)
       else
         rnlNew <- mkRootNodeLoc r ;;
         update rnlNew
           (fun R' => with_reclaimLater
                        (set_reclaimLater 0 (Some n) (reclaimLater R')) R') ;;;
         ok <- rootCAS rnl rnlNew ;;
         if negb ok then ret (Some ErrConcurrentMutation)
         else
           rootDecRef rnl ;;;
           freeNodeLoc t nloc ;;;
           ret None).

(** [rnd] is the draw of [rand.Int31()]. *)
Definition Set_ (key val : option bytes) (rnd : Z) : M (option error) :=
  SetItem {| Key := key; Val := val; Priority := rnd |}.

(** *** Delete *)

Definition Delete (key : bytes) : M (bool * option error) :=
  rnl <- rootAddRef ;;
  defer (rootDecRef rnl)
    (R <- load rnl ;;
     let root := root R in
     yield ;;;
     got <- GetItem key false ;;
     let '(i, err) := got in
     if negb (is_nil err) || is_nil i then ret (false, err)
     else
       parts <- lift_alloc (split root key) ;;
       let '(left, middle, right, err) := parts in
       if negb (is_nil err) then ret (false, of_store err)
       else if isEmpty middle then ret (false, Some (ErrConcurrentDelete key))
       else
         markReclaimable t (Node middle) ;;;
         freeNodeLoc t middle ;;;
         res <- lift_alloc (join left right) ;;
         let '(r, err) := res in
         if negb (is_nil err) then ret (false, of_store err)
         else
           rnlNew <- mkRootNodeLoc r ;;
           (if negb (isEmpty left)
            then update rnlNew
                   (fun R' => with_reclaimLater
                      (set_reclaimLater 0 (Node left) (reclaimLater R')) R')
            else ret tt) ;;;
           (if negb (isEmpty right)
            then update rnlNew
                   (fun R' => with_reclaimLater
                      (set_reclaimLater 1 (Node right) (reclaimLater R')) R')
            else ret tt) ;;;
           ok <- rootCAS rnl rnlNew ;;
           if negb ok then ret (false, Some ErrConcurrentMutation)
           else
             rootDecRef rnl ;;;
             freeNodeLoc t left ;;;
             freeNodeLoc t right ;;;
             ret (true, None)).

(** *** GetTotals *)

Definition GetTotals : M (Z * Z * option error) :=
  rnl <- rootAddRef ;;
  defer (rootDecRef rnl)
    (R <- load rnl ;;
     let n := root R in
     let (nNode, err) := read n in
     match nNode with
     | Some nd =>
         if negb (is_nil err) || isEmpty n then ret (0, 0, of_store err)
         else ret (numNodes nd, numBytes nd, None)
     | None => ret (0, 0, of_store err)
     end).

(** *** UnmarshalJSON *)

Definition ploc_eqb (a b : ploc) : bool :=
  (Offset a =? Offset b) && (Length a =? Length b).

(** The assignment [nloc.loc = unsafe.Pointer(&p)]: the edge now names
    the location [p]; without an in-memory node it denotes what the
    store holds there. *)
Definition set_loc (n : nodeLoc) (p : ploc) : nodeLoc :=
  match Node n with
  | Some nd => if ploc_eqb p ploc_empty then NL_mem nd else NL_cached p nd
  | None =>
      if ploc_eqb p ploc_empty then NL_empty
      else
        match readNode p with
        | Some nd => NL_disk p nd
        | None => NL_ioerr p
        end
  end.

Definition UnmarshalJSON (d : bytes) : M (option error) :=
  match json_Unmarshal d with
  | None => ret (Some ErrJSON)
  | Some p =>
      let nloc := set_loc (mkNodeLoc None) p in
      rnlNew <- mkRootNodeLoc nloc ;;
      ok <- rootCAS None rnlNew ;;
      if negb ok then ret (Some ErrUnmarshalConcurrent)
      else ret None
  end.

(** *** Write, flushItems *)

Definition itemLoc_write (i : itemLoc) : M (option error) :=
  emit (EvItemWrite t i) ;;;
  ret (of_store (item_write i)).

Definition store_flushNodes (n : nodeLoc) : M (option error) :=
  emit (EvFlushNodes n) ;;;
  ret (of_store (flushNodes n)).

(** An edge is held by value, so [nloc] is never [nil]; the first two
    branches are [!nloc.Loc().isEmpty()] and [node == nil]. *)
Fixpoint flushItems (nloc : nodeLoc) : M (option error) :=
  match nloc with
  | NL_cached _ _ | NL_disk _ _ | NL_ioerr _ => ret None
  | NL_empty => ret None
  | NL_mem node =>
      err <- flushItems (left node) ;;
      if negb (is_nil err) then ret err
      else
        err <- itemLoc_write (item node) ;;
        if negb (is_nil err) then ret err
        else flushItems (right node)
  end.

Definition Write : M (option error) :=
  rnl <- rootAddRef ;;
  defer (rootDecRef rnl)
    (R <- load rnl ;;
     let root := root R in
     err <- flushItems root ;;
     if negb (is_nil err) then ret err
     else
       err <- store_flushNodes root ;;
       if negb (is_nil err) then ret err
       else ret None).

End Collection.

(** ** The treap algebra, from the specification

    [store.go] is not among the sources; [split], [union] and [join]
    below follow section 4.3 of the specification, and the counts of a
    rebuilt node follow the node invariant of section 3. *)

Section TreapSpec.

Variable cmp : bytes -> bytes -> Z.

(** A result of the algebra: a value or a store error, and the next free
    node address. *)
Definition R (A : Type) : Type := nat -> (store_error + A) * nat.

Definition pure {A} (x : A) : R A := fun a => (inr x, a).
Definition fail {A} (e : store_error) : R A := fun a => (inl e, a).
Definition andThen {A B} (m : R A) (k : A -> R B) : R B :=
  fun a =>
    match m a with
    | (inl e, a') => (inl e, a')
    | (inr x, a') => k x a'
    end.

Notation "x <~ m ; k" := (andThen m (fun x => k))
  (at level 100, m at next level, right associativity).

(** The item of a node, read without its value; a node without an item
    or an item without a key is a corruption. *)
Definition node_item (nd : node) : R Item :=
  match item_read (item nd) false with
  | (_, Some e) => fail e
  | (None, None) => fail CorruptionError
  | (Some it, None) => pure it
  end.

Definition item_key (it : Item) : R bytes :=
  match Key it with
  | None => fail CorruptionError
  | Some k => pure k
  end.

(** [len(key) + valBytes] of an item cell. *)
Definition item_size (i : itemLoc) : R Z :=
  match item_read i true with
  | (_, Some e) => fail e
  | (None, None) => fail CorruptionError
  | (Some it, None) => pure (len (Key it) + NumValBytes it)
  end.

(** The aggregate fields of the node under an edge; zero for the empty
    edge. *)
Definition edge_counts (n : nodeLoc) : R (Z * Z) :=
  match read n with
  | (_, Some e) => fail e
  | (None, None) => pure (0, 0)
  | (Some nd, None) => pure (numNodes nd, numBytes nd)
  end.

(** Modelled from the spec: a fresh node "(item, left, right,
    recomputedCounts)", with [numNodes = 1 + left.numNodes +
    right.numNodes] and [numBytes = len(key) + valBytes + left.numBytes +
    right.numBytes] (sections 4.3 and 8), in [uint64]. *)
Definition new_node (i : itemLoc) (l r : nodeLoc) : R nodeLoc :=
  sz <~ item_size i ;
  cl <~ edge_counts l ;
  cr <~ edge_counts r ;
  fun a =>
    (inr (NL_mem (mk_node a i l r
                    (uint64_wrap (1 + fst cl + fst cr))
                    (uint64_wrap (sz + snd cl + snd cr)))),
     S a).

(** Modelled from the spec: [split(T, k)], "at each node compare k to
    node.key; recurse into the appropriate child; rebuild the uninvolved
    side using fresh Nodes"; the middle is the edge of the node with key
    [k], its children handed out as [lo] and [hi]. *)
Fixpoint split_spec (T : nodeLoc) (k : bytes) : R (nodeLoc * nodeLoc * nodeLoc) :=
  match T with
  | NL_ioerr l => fail (IOError l)
  | NL_empty => pure (NL_empty, NL_empty, NL_empty)
  | NL_mem nd | NL_cached _ nd | NL_disk _ nd =>
      it <~ node_item nd ;
      kn <~ item_key it ;
      let c := cmp k kn in
      if c =? 0 then pure (left nd, T, right nd)
      else if c <? 0 then
        parts <~ split_spec (left nd) k ;
        let '(lo, mid, hi) := parts in
        hi' <~ new_node (item nd) hi (right nd) ;
        pure (lo, mid, hi')
      else
        parts <~ split_spec (right nd) k ;
        let '(lo, mid, hi) := parts in
        lo' <~ new_node (item nd) (left nd) lo ;
        pure (lo', mid, hi)
  end.

(** The node under a non-empty edge. *)
Definition edge_node (n : nodeLoc) : R node :=
  match read n with
  | (_, Some e) => fail e
  | (None, None) => fail CorruptionError
  | (Some nd, None) => pure nd
  end.

(** Modelled from the spec: [union(A, B)] with [B] the insert side.
    Steps 1 to 6 of section 4.3: an empty side returns the other; the
    root [R] is the root of higher priority, [A]'s on a tie; the other
    tree is split on [R]'s key; the children of [R] are united with the
    two parts, the existing side first; a non-empty middle from the
    insert side supersedes [R]'s item; the result is a fresh node. *)
Fixpoint union_fuel (fuel : nat) (A B : nodeLoc) : R nodeLoc :=
  match fuel with
  | O => fail CorruptionError
  | S fuel' =>
      if isEmpty A then pure B
      else if isEmpty B then pure A
      else
        nA <~ edge_node A ;
        nB <~ edge_node B ;
        iA <~ node_item nA ;
        iB <~ node_item nB ;
        kA <~ item_key iA ;
        kB <~ item_key iB ;
        if Priority iA >=? Priority iB then
          parts <~ split_spec B kA ;
          let '(lo, mid, hi) := parts in
          L' <~ union_fuel fuel' (left nA) lo ;
          H' <~ union_fuel fuel' (right nA) hi ;
          if isEmpty mid then new_node (item nA) L' H'
          else
            nM <~ edge_node mid ;
            new_node (item nM) L' H'
        else
          parts <~ split_spec A kB ;
          let '(lo, mid, hi) := parts in
          L' <~ union_fuel fuel' lo (left nB) ;
          H' <~ union_fuel fuel' hi (right nB) ;
          new_node (item nB) L' H'
  end.

(** Modelled from the spec: [join(L, R)], "whichever root has higher
    priority becomes the new root; recursively join the adjacent subtrees
    on its inner side"; [L]'s root on a tie. *)
Fixpoint join_fuel (fuel : nat) (L Rt : nodeLoc) : R nodeLoc :=
  match fuel with
  | O => fail CorruptionError
  | S fuel' =>
      if isEmpty L then pure Rt
      else if isEmpty Rt then pure L
      else
        nL <~ edge_node L ;
        nR <~ edge_node Rt ;
        iL <~ node_item nL ;
        iR <~ node_item nR ;
        if Priority iL >=? Priority iR then
          inner <~ join_fuel fuel' (right nL) Rt ;
          new_node (item nL) (left nL) inner
        else
          inner <~ join_fuel fuel' L (left nR) ;
          new_node (item nR) inner (right nR)
  end.

(** The number of nodes under an edge, those on disk included. *)
Fixpoint node_size (nd : node) : nat :=
  match nd with
  | mk_node _ _ l r _ _ => S (edge_size l + edge_size r)
  end
with edge_size (n : nodeLoc) : nat :=
  match n with
  | NL_empty | NL_ioerr _ => O
  | NL_mem nd | NL_cached _ nd | NL_disk _ nd => node_size nd
  end.

Definition union_spec (A B : nodeLoc) : R nodeLoc :=
  union_fuel (S (edge_size A + edge_size B)) A B.

Definition join_spec (L Rt : nodeLoc) : R nodeLoc :=
  join_fuel (S (edge_size L + edge_size Rt)) L Rt.

(** The Go shape of a result: a value and an [error]; the empty edge
    goes with an error. *)
Definition go_result {A} (d : A) (r : (store_error + A) * nat)
  : (A * option store_error) * nat :=
  match r with
  | (inl e, a) => ((d, Some e), a)
  | (inr x, a) => ((x, None), a)
  end.

Definition go_result3 (r : (store_error + nodeLoc * nodeLoc * nodeLoc) * nat)
  : (nodeLoc * nodeLoc * nodeLoc * option store_error) * nat :=
  match r with
  | (inl e, a) => ((NL_empty, NL_empty, NL_empty, Some e), a)
  | (inr (lo, mid, hi), a) => ((lo, mid, hi, None), a)
  end.

(** Modelled from the spec: a full in-order visit with values, the
    items in ascending key order (section 8, laws). *)
Fixpoint visit_all (n : nodeLoc) : store_error + list Item :=
  match n with
  | NL_empty => inr []
  | NL_ioerr l => inl (IOError l)
  | NL_mem nd | NL_cached _ nd | NL_disk _ nd =>
      match visit_all (left nd) with
      | inl e => inl e
      | inr ls =>
          match item_read (item nd) true with
          | (_, Some e) => inl e
          | (None, None) => inl CorruptionError
          | (Some it, None) =>
              match visit_all (right nd) with
              | inl e => inl e
              | inr rs => inr (ls ++ it :: rs)
              end
          end
      end
  end.

End TreapSpec.

(** Modelled from the spec: the store of section 6 over the algebra
    above.  Reclamation does not touch the slots it is handed (section
    4.5, step 2); the writes, the JSON decoder and the content of the
    file stay parameters. *)
Definition spec_store (cmp : bytes -> bytes -> Z)
    (iw : itemLoc -> option store_error) (fn : nodeLoc -> option store_error)
    (ju : bytes -> option ploc) (pe : ploc) (rn : ploc -> option node) : Store :=
  {| compare := cmp;
     union := fun A B a => go_result NL_empty (union_spec cmp A B a);
     split := fun T k a => go_result3 (split_spec cmp T k a);
     join := fun L Rt a => go_result NL_empty (join_spec L Rt a);
     reclaim_scan := fun _ later => later;
     item_write := iw;
     flushNodes := fn;
     json_Unmarshal := ju;
     ploc_empty := pe;
     readNode := rn |}.

(** [bytes.Compare], the comparison the source names as an example of a
    [KeyCompare]: lexicographic, with results -1, 0 and +1. *)
Fixpoint bytes_Compare (a b : bytes) : Z :=
  match a, b with
  | [], [] => 0
  | [], _ :: _ => -1
  | _ :: _, [] => 1
  | x :: a', y :: b' =>
      match N.compare (Byte.to_N x) (Byte.to_N y) with
      | Lt => -1
      | Gt => 1
      | Eq => bytes_Compare a' b'
      end
  end.

(** A store in memory: every write succeeds, nothing decodes, and the
    file is empty. *)
Definition mem_store : Store :=
  spec_store bytes_Compare (fun _ => None) (fun _ => None) (fun _ => None)
             {| Offset := 0; Length := 0 |} (fun _ => None).

(** The empty collection: one [rootNodeLoc] over the empty edge, held
    by the collection. *)
Definition empty_root : rootNodeLoc :=
  {| refs := 1; root := NL_empty; next := None; chainedCollection := None;
     chainedRootNodeLoc := None; reclaimLater := (None, None) |}.

Definition init : State :=
  {| c_root := Some 0%nat; heap := {[ 0%nat := empty_root ]};
     next_addr := 0%nat; log := [] |}.

(** ** Vocabulary of the statements *)

Definition with_root (r : option rptr) (s : State) : State :=
  {| c_root := r; heap := heap s; next_addr := next_addr s; log := log s |}.

Definition with_log (l : list event) (s : State) : State :=
  {| c_root := c_root s; heap := heap s; next_addr := next_addr s; log := l |}.

(** The state [rootCAS] leaves when it chains [p] to [n]. *)
Definition chained (t : cptr) (p n : rptr) (P N : rootNodeLoc) (s : State) : State :=
  let P1 := with_chainedRootNodeLoc (Some n) (with_chainedCollection (Some t) P) in
  let N1 := if decide (p = n) then P1 else N in
  set_heap (<[n := with_refs (int64_wrap (refs N + 1)) N1]> (<[p := P1]> (heap s)))
           (with_root (Some n) s).


(** ** States of the examples *)

Definition fresh_root (r : nodeLoc) (n : Z) : rootNodeLoc :=
  {| refs := n; root := r; next := None; chainedCollection := None;
     chainedRootNodeLoc := None; reclaimLater := (None, None) |}.

(** The root [0] is held by the collection, by the caller and by one
    more reader; [1] is a root ready to be published. *)
Definition busy : State :=
  {| c_root := Some 0%nat;
     heap := {[ 0%nat := fresh_root NL_empty 3; 1%nat := fresh_root NL_empty 1 ]};
     next_addr := 0%nat; log := [] |}.

(** ** Reclamation, in the words of the specification *)

Section ReclaimSpec.

Context {St : Store}.

Definition slot_events (c : cptr) (n : option node) : list event :=
  match n with
  | None => []
  | Some nd => [EvReclaimNodes c (Some nd) None]
  end.

(** What the end of a [rootNodeLoc] [R] at [r] logs, in order: the tree
    of the retired root with the slots to skip, each slot that is not
    [nil] after that, the root's edge, the [rootNodeLoc]. *)
Definition reclaim_events (c : cptr) (r : rptr) (R : rootNodeLoc) : list event :=
  let later := reclaim_scan (Node (root R)) (reclaimLater R) in
  [EvReclaimNodes c (Node (root R)) (Some (reclaimLater R))]
  ++ slot_events c (fst later)
  ++ slot_events c (snd later)
  ++ [EvFreeNodeLoc c (root R); EvFreeRootNodeLoc c r].

Definition reclaimed (c : cptr) (r : rptr) (R : rootNodeLoc) (s : State) : State :=
  let later := reclaim_scan (Node (root R)) (reclaimLater R) in
  with_log (log s ++ reclaim_events c r R)
           (set_heap (<[r := with_reclaimLater later R]> (heap s)) s).

(** The release of the chained successor, when both chain fields are set. *)
Definition cascade (fuel : nat) (R : rootNodeLoc) : M unit :=
  match chainedCollection R, chainedRootNodeLoc R with
  | Some c', Some r' => rootDecRef_unlocked fuel c' (Some r')
  | _, _ => ret tt
  end.

(** [chain_of h r l]: [l] lists the [rootNodeLoc]s from [r] along the
    chain, up to the first one that has no successor. *)
Inductive chain_of (h : gmap rptr rootNodeLoc) : rptr -> list rptr -> Prop :=
  | chain_end r R :
      h !! r = Some R ->
      chainedCollection R = None \/ chainedRootNodeLoc R = None ->
      chain_of h r [r]
  | chain_step r R c' r' l :
      h !! r = Some R ->
      chainedCollection R = Some c' -> chainedRootNodeLoc R = Some r' ->
      chain_of h r' l ->
      chain_of h r (r :: l).

End ReclaimSpec.

(** ** What the reference counting leaves alone *)

(** Two [rootNodeLoc]s that differ in [refs] and [reclaimLater] only. *)
Definition same_links (R R' : rootNodeLoc) : Prop :=
  root R = root R' /\ next R = next R' /\
  chainedCollection R = chainedCollection R' /\
  chainedRootNodeLoc R = chainedRootNodeLoc R'.

Definition same_shape (h h' : gmap rptr rootNodeLoc) : Prop :=
  forall a,
    match h !! a, h' !! a with
    | Some R, Some R' => same_links R R'
    | None, None => True
    | _, _ => False
    end.

(** [frame s s']: the published root, the allocator and the links of
    every [rootNodeLoc] are those of [s]; the log has grown. *)
Definition frame (s s' : State) : Prop :=
  c_root s' = c_root s /\ next_addr s' = next_addr s /\
  same_shape (heap s) (heap s') /\
  exists l, log s' = log s ++ l.

Definition leaf (a : nat) (k v : bytes) (p : Z) : node :=
  mk_node a (IL_mem {| Key := Some k; Val := Some v; Priority := p |})
          NL_empty NL_empty 1 (Z.of_nat (length k) + Z.of_nat (length v)).

Definition key_a : bytes := [Byte.x61].
Definition key_b : bytes := [Byte.x62].
Definition key_c : bytes := [Byte.x63].
Definition val_1 : bytes := [Byte.x31].
Definition val_2 : bytes := [Byte.x32].
Definition val_3 : bytes := [Byte.x33].

(** A retired root [0] with its last reference, chained to the root [1]
    of the collection [7]; [1] is held by [0] only. *)
Definition retired_pair : State :=
  {| c_root := None;
     heap :=
       {[ 0%nat := {| refs := 1; root := NL_mem (leaf 0 key_a val_1 5);
                      next := None; chainedCollection := Some 7%nat;
                      chainedRootNodeLoc := Some 1%nat;
                      reclaimLater := (Some (leaf 1 key_b val_2 3), None) |};
          1%nat := fresh_root NL_empty 1 ]};
     next_addr := 2%nat; log := [] |}.

(** ** Postconditions *)

(** [post m Q s]: if [m] returns from [s], its result and final state
    satisfy [Q]. *)
Definition post {A} (m : M A) (Q : A -> State -> Prop) (s : State) : Prop :=
  match m s with
  | Done a s' => Q a s'
  | Panicked _ _ => True
  end.

(** [keeps_root m]: [m] does not assign [Collection.root]. *)
Definition keeps_root {A} (m : M A) : Prop :=
  forall s, c_root (state_of (m s)) = c_root s.

(** The first test of [SetItem]. *)
Definition checks (i : Item) : bool :=
  is_nil (Key i) || (len (Key i) >? 65535) || (len (Key i) =? 0) || is_nil (Val i).

(** The conditions under which [SetItem] rejects an item. *)
Definition rejected (i : Item) : Prop :=
  Key i = None \/ len (Key i) > 65535 \/ len (Key i) = 0 \/ Val i = None
  \/ Priority i < 0.

(** An item with a key of 65535 bytes. *)
Definition big_key : bytes := repeat Byte.x61 (Z.to_nat 65535).

Definition big_item : Item :=
  {| Key := Some big_key; Val := Some val_1; Priority := 0 |}.

Definition item_a : Item := {| Key := Some key_a; Val := Some val_1; Priority := 7 |}.
Definition item_b : Item := {| Key := Some key_b; Val := Some val_2; Priority := 5 |}.
Definition item_c : Item := {| Key := Some key_c; Val := Some val_3; Priority := 3 |}.

(** Another goroutine that sets [item_b] while this one is outside the
    lock. *)
Definition rival (s : State) : State :=
  state_of (SetItem (St := mem_store) 0%nat id item_b s).

(** A store whose JSON decoder yields the location (8, 16) and whose file
    holds a leaf there. *)
Definition disk_store : Store :=
  spec_store bytes_Compare (fun _ => None) (fun _ => None)
             (fun _ => Some {| Offset := 8; Length := 16 |})
             {| Offset := 0; Length := 0 |}
             (fun _ => Some (leaf 0 key_a val_1 5)).

(** A collection that was never given a root. *)
Definition unpublished : State :=
  {| c_root := None; heap := ∅; next_addr := 1%nat; log := [] |}.

(** ** A collection at rest *)

(** [quiescent s r0 R0]: the published root [r0] is held by the
    collection alone and has no chain. *)
Definition quiescent (s : State) (r0 : rptr) (R0 : rootNodeLoc) : Prop :=
  c_root s = Some r0 /\ heap s !! r0 = Some R0 /\ refs R0 = 1 /\
  chainedCollection R0 = None /\ chainedRootNodeLoc R0 = None.

(** The tree of the published root. *)
Definition published (s : State) : option nodeLoc :=
  match c_root s with
  | None => None
  | Some r => root <$> heap s !! r
  end.

Section Swapped.

Context {St : Store}.

(** The state after a mutation of a collection at rest: a fresh
    [rootNodeLoc] over [r] with the slots [slots] is published, and the
    displaced root [r0], released by the caller and by the collection,
    is reclaimed; [evs] are the pool calls made before that. *)
Definition swapped (t : cptr) (s : State) (r0 : rptr) (R0 : rootNodeLoc)
    (r : nodeLoc) (slots : option node * option node) (k : nat)
    (evs : list event) : State :=
  let a := fresh (dom (heap s)) in
  let R0' := with_refs 0 R0 in
  {| c_root := Some a;
     heap :=
       <[r0 := with_reclaimLater
                 (reclaim_scan (Node (root R0)) (reclaimLater R0)) R0']>
         (<[a := {| refs := 1; root := r; next := None;
                    chainedCollection := None; chainedRootNodeLoc := None;
                    reclaimLater := slots |}]> (heap s));
     next_addr := k;
     log := log s ++ evs ++ reclaim_events t r0 R0' |}.

(** The singleton node [SetItem] makes for an item. *)
Definition singleton (a : nat) (i : Item) : node :=
  set_item (mk_node a IL_empty NL_empty NL_empty 1
              (uint64_wrap (len (Key i) + NumValBytes i))) i.

End Swapped.

(** The collection after [Set("b","2")], [Set("a","1")], [Set("c","3")]
    with the priorities 5, 7 and 3. *)
Definition three : State :=
  Eval vm_compute in
    state_of (SetItem (St := mem_store) 0%nat id item_c
      (state_of (SetItem (St := mem_store) 0%nat id item_a
        (state_of (SetItem (St := mem_store) 0%nat id item_b init))))).

Definition root_of (s : State) : rootNodeLoc :=
  match c_root s with
  | Some r => default empty_root (heap s !! r)
  | None => empty_root
  end.

Definition three_root : rootNodeLoc := Eval vm_compute in root_of three.

(** ** Write, in the words of the specification *)

(** The items [Write] is to write, in key order: for a node without a
    persisted location, the items of its left subtree, its own item, the
    items of its right subtree; nothing for an edge that is empty or
    has a persisted location. *)
Fixpoint unpersisted_items (n : nodeLoc) : list itemLoc :=
  match n with
  | NL_mem nd =>
      unpersisted_items (left nd) ++ item nd :: unpersisted_items (right nd)
  | NL_empty | NL_cached _ _ | NL_disk _ _ | NL_ioerr _ => []
  end.

Section WriteSpec.

Context {St : Store}.

(** The items written when the list is written in order and the first
    failure stops the writing, and that failure. *)
Fixpoint attempted (l : list itemLoc) : list itemLoc :=
  match l with
  | [] => []
  | i :: l' =>
      match item_write i with
      | Some _ => [i]
      | None => i :: attempted l'
      end
  end.

Fixpoint first_error (l : list itemLoc) : option error :=
  match l with
  | [] => None
  | i :: l' =>
      match item_write i with
      | Some e => Some (ErrStore e)
      | None => first_error l'
      end
  end.

(** Writing the items of a list in order, as [flushItems] does along
    the tree. *)
Fixpoint write_all (t : cptr) (l : list itemLoc) : M (option error) :=
  match l with
  | [] => ret None
  | i :: l' =>
      err <- itemLoc_write t i ;;
      if negb (is_nil err) then ret err else write_all t l'
  end.

End WriteSpec.

(** A tree with an unpersisted spine and a persisted right subtree. *)
Definition mixed_tree : nodeLoc :=
  NL_mem (mk_node 2 (IL_mem item_b)
            (NL_mem (leaf 0 key_a val_1 7))
            (NL_cached {| Offset := 8; Length := 16 |} (leaf 1 key_c val_3 3))
            3 6).

Definition mixed : State :=
  {| c_root := Some 0%nat; heap := {[ 0%nat := fresh_root mixed_tree 1 ]};
     next_addr := 3%nat; log := [] |}.

(** ** Search trees *)

(** The key of an item cell, as [GetItem] reads it. *)
Definition cell_key (i : itemLoc) : option bytes :=
  match item_read i false with
  | (Some it, None) => Key it
  | _ => None
  end.

Section SearchTree.

Context {St : Store}.

(** [all_keys P n]: every node under [n] can be read, has an item with
    a key, and the key satisfies [P]. *)
Fixpoint all_keys_node (P : bytes -> Prop) (nd : node) : Prop :=
  match nd with
  | mk_node _ i l r _ _ =>
      (exists k, cell_key i = Some k /\ P k) /\ all_keys P l /\ all_keys P r
  end
with all_keys (P : bytes -> Prop) (n : nodeLoc) : Prop :=
  match n with
  | NL_empty => True
  | NL_ioerr _ => False
  | NL_mem nd | NL_cached _ nd | NL_disk _ nd => all_keys_node P nd
  end.

(** [ordered n]: under the collection's [compare], the keys of a left
    subtree are below the key of the node and those of the right subtree
    above it. *)
Fixpoint ordered_node (nd : node) : Prop :=
  match nd with
  | mk_node _ i l r _ _ =>
      (exists k, cell_key i = Some k /\
                 all_keys (fun x => compare x k < 0) l /\
                 all_keys (fun x => compare x k > 0) r) /\
      ordered l /\ ordered r
  end
with ordered (n : nodeLoc) : Prop :=
  match n with
  | NL_empty => True
  | NL_ioerr _ => False
  | NL_mem nd | NL_cached _ nd | NL_disk _ nd => ordered_node nd
  end.

End SearchTree.

(** [holds key i n]: some node under [n] has the key [key] and the item
    cell [i]. *)
Inductive holds (key : bytes) (i : itemLoc) : nodeLoc -> Prop :=
  | holds_here n nd :
      read n = (Some nd, None) -> item nd = i -> cell_key i = Some key ->
      holds key i n
  | holds_left n nd :
      read n = (Some nd, None) -> holds key i (left nd) -> holds key i n
  | holds_right n nd :
      read n = (Some nd, None) -> holds key i (right nd) -> holds key i n.

(** ** A reader across a mutation *)

(** The state after [SetItem] when one reader holds the displaced root
    [r0]: the fresh root over [r] is published with the reference of the
    collection and the one of the chain, and [r0], chained to it, keeps
    the reference of the reader. *)
Definition handed_over (t : cptr) (s : State) (r0 : rptr) (R0 : rootNodeLoc)
    (r : nodeLoc) (n : node) (k : nat) : State :=
  let a := fresh (dom (heap s)) in
  {| c_root := Some a;
     heap :=
       <[r0 := with_chainedRootNodeLoc (Some a)
                 (with_chainedCollection (Some t) (with_refs 1 R0))]>
         (<[a := {| refs := 2; root := r; next := None;
                    chainedCollection := None; chainedRootNodeLoc := None;
                    reclaimLater := (Some n, None) |}]> (heap s));
     next_addr := k;
     log := log s ++ [EvFreeNodeLoc t (NL_mem n)] |}.

(** A collection whose root is held by the collection and by one reader. *)
Definition read_once : State :=
  {| c_root := Some 0%nat; heap := {[ 0%nat := fresh_root NL_empty 2 ]};
     next_addr := 0%nat; log := [] |}.

(** ** MarshalJSON and the visits *)

Section Codec.

Context {St : Store}.
Variable t : cptr.

(** [json.Marshal] on a location. *)
Variable json_Marshal : ploc -> option bytes * option error.

Definition MarshalJSON : M (option bytes * option error) :=
  rnl <- rootAddRef ;;
  defer (rootDecRef t rnl)
    (R <- load rnl ;;
     let loc := Loc (root R) in
     if ploc_isEmpty loc then ret (json_Marshal ploc_empty)
     else
       match loc with
       | Some l => ret (json_Marshal l)
       | None => ret (json_Marshal ploc_empty)
       end).

End Codec.

Definition ItemVisitor : Type := Item -> bool.
Definition ItemVisitorEx : Type := Item -> Z -> bool.

Definition ascendChoice (cmp : Z) (n : node) : bool * nodeLoc * nodeLoc :=
  (cmp <=? 0, left n, right n).

Definition descendChoice (cmp : Z) (n : node) : bool * nodeLoc * nodeLoc :=
  (cmp >? 0, right n, left n).

Section Visits.

Context {St : Store}.
Variable t : cptr.

(** [store.visitNodes], which [collection.go] calls and does not define:
    its result for a root, a target, a visitor, a depth and a choice. *)
Variable visitNodes :
  nodeLoc -> bytes -> bool -> ItemVisitorEx -> Z ->
  (Z -> node -> bool * nodeLoc * nodeLoc) -> bool * option store_error.

Definition VisitItemsAscendEx (target : bytes) (withValue : bool)
    (visitor : ItemVisitorEx) : M (option error) :=
  rnl <- rootAddRef ;;
  defer (rootDecRef t rnl)
    (R <- load rnl ;;
     let '(_, err) :=
       visitNodes (root R) target withValue visitor 0 ascendChoice in
     ret (of_store err)).

Definition VisitItemsDescendEx (target : bytes) (withValue : bool)
    (visitor : ItemVisitorEx) : M (option error) :=
  rnl <- rootAddRef ;;
  defer (rootDecRef t rnl)
    (R <- load rnl ;;
     let '(_, err) :=
       visitNodes (root R) target withValue visitor 0 descendChoice in
     ret (of_store err)).

Definition VisitItemsAscend (target : bytes) (withValue : bool)
    (v : ItemVisitor) : M (option error) :=
  VisitItemsAscendEx target withValue (fun i depth => v i).

Definition VisitItemsDescend (target : bytes) (withValue : bool)
    (v : ItemVisitor) : M (option error) :=
  VisitItemsDescendEx target withValue (fun i depth => v i).

End Visits.

(** A codec for the examples: a location is written as its two numbers,
    each as one byte. *)
Definition two_bytes (p : ploc) : option bytes * option error :=
  if (Offset p <? 0) || (Length p <? 0) then (None, Some ErrJSON)
  else
    match Byte.of_N (Z.to_N (Offset p)), Byte.of_N (Z.to_N (Length p)) with
    | Some a, Some b => (Some [a; b], None)
    | _, _ => (None, Some ErrJSON)
    end.

Definition of_two_bytes (d : bytes) : option ploc :=
  match d with
  | [a; b] => Some {| Offset := Z.of_N (Byte.to_N a); Length := Z.of_N (Byte.to_N b) |}
  | _ => None
  end.

Definition byte_store : Store :=
  spec_store bytes_Compare (fun _ => None) (fun _ => None) of_two_bytes
             {| Offset := 0; Length := 0 |}
             (fun _ => Some (leaf 0 key_a val_1 5)).

(** A collection whose root is persisted at (8, 16), and one whose root
    is in memory only. *)
Definition persisted : State :=
  {| c_root := Some 0%nat;
     heap := {[ 0%nat := fresh_root (NL_cached {| Offset := 8; Length := 16 |}
                                       (leaf 0 key_a val_1 5)) 1 ]};
     next_addr := 1%nat; log := [] |}.

(** A collection whose root node carries an item without a key. *)
Definition keyless : State :=
  {| c_root := Some 0%nat;
     heap := {[ 0%nat := fresh_root
                  (NL_mem (mk_node 0 (IL_mem {| Key := None; Val := Some val_1;
                                                Priority := 1 |})
                             NL_empty NL_empty 1 1)) 1 ]};
     next_addr := 1%nat; log := [] |}.

(** ** Delete, in the words of the specification *)

Section DeleteSpec.

Context {St : Store}.
Variable t : cptr.







End DeleteSpec.

(** * Properties *)

(** ** Tools *)

Lemma ptr_eqb_eq (a b : option rptr) : ptr_eqb a b = true <-> a = b.
Proof.
  destruct a as [x|], b as [y|]; simpl; split; try congruence.
  - intros E. apply Nat.eqb_eq in E. congruence.
  - intros E. injection E as ->. apply Nat.eqb_refl.
Qed.

Lemma ptr_eqb_neq (a b : option rptr) : ptr_eqb a b = false <-> a <> b.
Proof.
  rewrite <- ptr_eqb_eq. destruct (ptr_eqb a b); split; congruence.
Qed.

Lemma int64_wrap_id (z : Z) : int64_range z -> int64_wrap z = z.
Proof.
  unfold int64_range, int64_wrap. intros Hz.
  rewrite Z.mod_small; lia.
Qed.

Section RootCAS.

Variable t : cptr.

Lemma rootCAS_lost prev next s :
  c_root s <> prev -> rootCAS t prev next s = Done false s.
Proof.
  intros Hne. unfold rootCAS, bind, get_root.
  apply ptr_eqb_neq in Hne. rewrite Hne. reflexivity.
Qed.

Lemma rootCAS_nil next s :
  c_root s = None -> rootCAS t None next s = Done true (with_root next s).
Proof.
  intros Hr. unfold rootCAS, bind, get_root. rewrite Hr. reflexivity.
Qed.

Lemma rootCAS_unchained p P next s :
  c_root s = Some p -> heap s !! p = Some P -> refs P <= 2 ->
  rootCAS t (Some p) next s = Done true (with_root next s).
Proof.
  intros Hr Hp Hle. unfold rootCAS, bind, get_root, set_root, load.
  rewrite Hr. simpl. rewrite Nat.eqb_refl. simpl. rewrite Hp.
  destruct (refs P >? 2) eqn:E; [lia | reflexivity].
Qed.

Lemma rootCAS_chain_taken p P next s :
  c_root s = Some p -> heap s !! p = Some P -> refs P > 2 ->
  chainedCollection P <> None \/ chainedRootNodeLoc P <> None ->
  rootCAS t (Some p) next s = Panicked ChainAlreadyTaken (with_root next s).
Proof.
  intros Hr Hp Hgt Hc. unfold rootCAS, bind, get_root, set_root, load.
  rewrite Hr. simpl. rewrite Nat.eqb_refl. simpl. rewrite Hp.
  destruct (refs P >? 2) eqn:E; [| lia].
  destruct (chainedCollection P), (chainedRootNodeLoc P); simpl;
    try reflexivity.
  destruct Hc; congruence.
Qed.

Lemma rootCAS_chains p P n N s :
  c_root s = Some p -> heap s !! p = Some P -> refs P > 2 ->
  chainedCollection P = None -> chainedRootNodeLoc P = None ->
  heap s !! n = Some N ->
  rootCAS t (Some p) (Some n) s = Done true (chained t p n P N s).
Proof.
  intros Hr Hp Hgt Hc1 Hc2 Hn.
  unfold rootCAS, bind, get_root, set_root, load, update, bind, load.
  rewrite Hr. simpl. rewrite Nat.eqb_refl. simpl. rewrite Hp.
  destruct (refs P >? 2) eqn:E; [| lia].
  rewrite Hc1, Hc2. simpl. rewrite Hp. simpl.
  rewrite lookup_insert_eq. simpl.
  unfold chained. destruct (decide (p = n)) as [->|Hne].
  - rewrite lookup_insert_eq. simpl.
    rewrite Hp in Hn. injection Hn as <-.
    rewrite !insert_insert_eq. reflexivity.
  - rewrite lookup_insert_ne by congruence.
    rewrite lookup_insert_ne by congruence. rewrite Hn. simpl.
    rewrite insert_insert_eq. reflexivity.
Qed.

End RootCAS.

Section RootCAS_claim.

Variable t : cptr.

Lemma rootCAS_true_installs prev next s s' :
  rootCAS t prev next s = Done true s' -> c_root s = prev /\ c_root s' = next.
Proof.
  unfold rootCAS, bind, get_root, set_root.
  destruct (ptr_eqb (c_root s) prev) eqn:E; simpl; [| discriminate].
  apply ptr_eqb_eq in E. intros Hrun. split; [exact E |].
  destruct prev as [p|]; [| injection Hrun as <-; reflexivity].
  unfold load, update, bind, load, throw, ret in Hrun. cbn in Hrun.
  destruct (heap s !! p) as [P|] eqn:Hp; [| discriminate].
  destruct (refs P >? 2); [| injection Hrun as <-; reflexivity].
  destruct (negb (is_nil (chainedCollection P))
            || negb (is_nil (chainedRootNodeLoc P))); [discriminate |].
  cbn in Hrun. rewrite Hp in Hrun. cbn in Hrun.
  rewrite lookup_insert_eq in Hrun.
  cbn in Hrun. destruct next as [n|]; [| discriminate].
  match type of Hrun with
  | context [?h !! n] => destruct (h !! n); [| discriminate]
  end.
  injection Hrun as <-. reflexivity.
Qed.

Lemma rootCAS_false_unchanged prev next s s' :
  rootCAS t prev next s = Done false s' -> c_root s <> prev /\ s' = s.
Proof.
  intros Hrun. destruct (decide (c_root s = prev)) as [E|E].
  - exfalso. revert Hrun. unfold rootCAS, bind, get_root, set_root.
    apply ptr_eqb_eq in E. rewrite E. simpl.
    destruct prev as [p|]; [| discriminate].
    unfold load, update, bind, load, throw, ret. cbn.
    destruct (heap s !! p) as [P|] eqn:Hp; [| discriminate].
    destruct (refs P >? 2); [| discriminate].
    destruct (negb (is_nil (chainedCollection P))
              || negb (is_nil (chainedRootNodeLoc P))); [discriminate |].
    cbn. rewrite Hp. cbn. rewrite lookup_insert_eq. cbn.
    destruct next as [n|]; [| discriminate].
    match goal with
    | |- context [?h !! n] => destruct (h !! n); discriminate
    end.
  - rewrite (rootCAS_lost t prev next s E) in Hrun.
    injection Hrun as <-. split; [exact E | reflexivity].
Qed.

(** C1.  The root CAS: it returns false exactly when the current root is
    not the witness [prev], and then the state is the one before the call;
    a successful call leaves [next] as the root; when the displaced
    [prev] has [refs > 2] and no chain, [prev] is chained to [next]
    ([chainedCollection] is the collection, [chainedRootNodeLoc] is
    [next]) and [next.refs] goes up by one; when it has [refs > 2] and
    one of the chain fields set, the call panics; with [refs <= 2]
    nothing but the root changes. *)
Theorem rootCAS_protocol (prev next : option rptr) (s : State) :
  (c_root s <> prev -> rootCAS t prev next s = Done false s) /\
  (forall s', rootCAS t prev next s = Done false s' ->
              c_root s <> prev /\ s' = s) /\
  (forall s', rootCAS t prev next s = Done true s' ->
              c_root s = prev /\ c_root s' = next) /\
  (forall p P n N,
      c_root s = prev -> prev = Some p -> next = Some n ->
      heap s !! p = Some P -> heap s !! n = Some N ->
      (refs P > 2 -> chainedCollection P = None ->
       chainedRootNodeLoc P = None ->
       exists s' P' N',
         rootCAS t prev next s = Done true s' /\
         c_root s' = next /\
         heap s' !! p = Some P' /\
         chainedCollection P' = Some t /\
         chainedRootNodeLoc P' = next /\
         heap s' !! n = Some N' /\
         refs N' = int64_wrap (refs N + 1) /\
         (int64_range (refs N + 1) -> refs N' = refs N + 1) /\
         (forall a, a <> p -> a <> n -> heap s' !! a = heap s !! a)) /\
      (refs P > 2 ->
       chainedCollection P <> None \/ chainedRootNodeLoc P <> None ->
       exists s', rootCAS t prev next s = Panicked ChainAlreadyTaken s') /\
      (refs P <= 2 ->
       rootCAS t prev next s = Done true (with_root next s))).
Proof.
  split; [apply rootCAS_lost |].
  split; [apply rootCAS_false_unchanged |].
  split; [apply rootCAS_true_installs |].
  intros p P n N Hr -> -> Hp Hn. split; [| split].
  - intros Hgt Hc1 Hc2.
    pose proof (rootCAS_chains t p P n N s Hr Hp Hgt Hc1 Hc2 Hn) as Hrun.
    exists (chained t p n P N s). unfold chained in *.
    destruct (decide (p = n)) as [->|Hne].
    + eexists _, _. split; [exact Hrun |]. simpl.
      rewrite !lookup_insert_eq.
      repeat split; try reflexivity.
      * intros Hrange. apply int64_wrap_id. exact Hrange.
      * intros a Ha _. rewrite !lookup_insert_ne by congruence. reflexivity.
    + eexists _, _. split; [exact Hrun |]. simpl.
      rewrite lookup_insert_eq.
      rewrite lookup_insert_ne by congruence. rewrite lookup_insert_eq.
      repeat split; try reflexivity.
      * intros Hrange. apply int64_wrap_id. exact Hrange.
      * intros a Ha Hb. rewrite !lookup_insert_ne by congruence. reflexivity.
  - intros Hgt Hc. eexists. apply (rootCAS_chain_taken t p P); assumption.
  - intros Hle. apply (rootCAS_unchained t p P); assumption.
Qed.

End RootCAS_claim.

Lemma rootCAS_protocol_witness :
  exists s' P' N',
    rootCAS 7%nat (Some 0%nat) (Some 1%nat) busy = Done true s' /\
    c_root s' = Some 1%nat /\
    heap s' !! 0%nat = Some P' /\
    chainedCollection P' = Some 7%nat /\
    chainedRootNodeLoc P' = Some 1%nat /\
    heap s' !! 1%nat = Some N' /\
    refs N' = 2.
Proof.
  destruct (rootCAS_protocol 7%nat (Some 0%nat) (Some 1%nat) busy)
    as (_ & _ & _ & Hcases).
  destruct (Hcases 0%nat (fresh_root NL_empty 3) 1%nat (fresh_root NL_empty 1)
              eq_refl eq_refl eq_refl eq_refl eq_refl) as (Hchain & _ & _).
  destruct Hchain as (s' & P' & N' & Hrun & Hroot & Hp & Hc1 & Hc2 & Hn & Hrefs & _);
    [simpl; lia | reflexivity | reflexivity |].
  exists s', P', N'. repeat split; assumption.
Defined.

(** ** rootDecRef *)

Section RootDecRef.

Context {St : Store}.

Lemma set_heap_heap h s : heap (set_heap h s) = h.
Proof. reflexivity. Qed.

Lemma load_Some r R s : heap s !! r = Some R -> load (Some r) s = Done R s.
Proof. intros E. unfold load. rewrite E. reflexivity. Qed.

Lemma update_Some r R f s :
  heap s !! r = Some R ->
  update (Some r) f s = Done tt (set_heap (<[r := f R]> (heap s)) s).
Proof. intros E. unfold update, bind. rewrite (load_Some r R s E). reflexivity. Qed.

Lemma reclaim_slot_run c r R i s :
  heap s !! r = Some R ->
  reclaim_slot c (Some r) i s =
  Done tt (with_log
             (log s ++ slot_events c (if Nat.eqb i 0 then fst (reclaimLater R)
                                      else snd (reclaimLater R))) s).
Proof.
  intros E. unfold reclaim_slot, bind. rewrite (load_Some r R s E).
  destruct (if Nat.eqb i 0 then fst (reclaimLater R) else snd (reclaimLater R));
    simpl.
  - reflexivity.
  - unfold ret, with_log. rewrite app_nil_r. destruct s; reflexivity.
Qed.

(** After the cascade, the reclamation proper. *)
Lemma reclaim_run c r R s :
  heap s !! r = Some R ->
  (R1 <- load (Some r) ;;
   reclaimNodes_unlocked c (Node (root R1)) (Some (Some r)) ;;;
   reclaim_slot c (Some r) 0 ;;;
   reclaim_slot c (Some r) 1 ;;;
   R2 <- load (Some r) ;;
   freeNodeLoc c (root R2) ;;;
   freeRootNodeLoc c (Some r)) s = Done tt (reclaimed c r R s).
Proof.
  intros E. unfold bind at 1. rewrite (load_Some r R s E).
  unfold bind at 1. unfold reclaimNodes_unlocked.
  unfold bind at 1. rewrite (load_Some r R s E).
  unfold bind at 1. unfold emit at 1.
  match goal with
  | |- context [update (Some r) ?f ?s1] =>
      rewrite (update_Some r R f s1) by exact E
  end.
  set (later := reclaim_scan (Node (root R)) (reclaimLater R)).
  match goal with
  | |- context [bind (reclaim_slot c (Some r) 0) ?k ?s1] =>
      unfold bind at 1;
      rewrite (reclaim_slot_run c r (with_reclaimLater later R) 0%nat s1)
        by (simpl; apply lookup_insert_eq)
  end.
  match goal with
  | |- context [bind (reclaim_slot c (Some r) 1) ?k ?s1] =>
      unfold bind at 1;
      rewrite (reclaim_slot_run c r (with_reclaimLater later R) 1%nat s1)
        by (simpl; apply lookup_insert_eq)
  end.
  unfold bind at 1.
  match goal with
  | |- context [load (Some r) ?s1] =>
      rewrite (load_Some r (with_reclaimLater later R) s1)
        by (simpl; apply lookup_insert_eq)
  end.
  unfold bind, freeNodeLoc, freeRootNodeLoc, emit. simpl.
  unfold reclaimed, reclaim_events, with_log, set_heap. simpl.
  fold later. rewrite <- !app_assoc. reflexivity.
Qed.

Lemma rootDecRef_unlocked_step fuel c r R0 s :
  heap s !! r = Some R0 ->
  let R1 := with_refs (int64_wrap (refs R0 - 1)) R0 in
  let s1 := set_heap (<[r := R1]> (heap s)) s in
  rootDecRef_unlocked (S fuel) c (Some r) s =
  if refs R1 >? 0 then Done tt s1
  else
    match cascade fuel R1 s1 with
    | Panicked p s2 => Panicked p s2
    | Done _ s2 =>
        match heap s2 !! r with
        | None => Panicked (InvalidPointer r) s2
        | Some R2 => Done tt (reclaimed c r R2 s2)
        end
    end.
Proof.
  intros E R1 s1. simpl rootDecRef_unlocked.
  unfold bind at 1. rewrite (update_Some r R0 _ s E). fold R1. fold s1.
  unfold bind at 1. rewrite (load_Some r R1 s1) by apply lookup_insert_eq.
  destruct (refs R1 >? 0); [reflexivity |].
  unfold bind at 1. fold (cascade fuel R1).
  destruct (cascade fuel R1 s1) as [[] s2 | p s2]; [| reflexivity].
  destruct (heap s2 !! r) as [R2|] eqn:E2.
  - apply (reclaim_run c r R2 s2 E2).
  - unfold bind, load. rewrite E2. reflexivity.
Qed.

End RootDecRef.

(** ** Frames *)

Lemma same_links_refl R : same_links R R.
Proof. repeat split. Qed.

Lemma same_links_trans R1 R2 R3 :
  same_links R1 R2 -> same_links R2 R3 -> same_links R1 R3.
Proof.
  intros (a & b & c & d) (a' & b' & c' & d'). repeat split; congruence.
Qed.

Lemma same_shape_refl h : same_shape h h.
Proof. intros a. destruct (h !! a); [apply same_links_refl | exact I]. Qed.

Lemma same_shape_trans h1 h2 h3 :
  same_shape h1 h2 -> same_shape h2 h3 -> same_shape h1 h3.
Proof.
  intros H12 H23 a. specialize (H12 a). specialize (H23 a).
  destruct (h1 !! a), (h2 !! a), (h3 !! a); try tauto.
  eapply same_links_trans; eassumption.
Qed.

Lemma same_shape_insert h r R R' :
  h !! r = Some R -> same_links R R' -> same_shape h (<[r := R']> h).
Proof.
  intros E HL a. destruct (decide (r = a)) as [<-|Hne].
  - rewrite lookup_insert_eq, E. exact HL.
  - rewrite lookup_insert_ne by exact Hne.
    destruct (h !! a); [apply same_links_refl | exact I].
Qed.

Lemma same_shape_lookup h h' r R :
  same_shape h h' -> h !! r = Some R ->
  exists R', h' !! r = Some R' /\ same_links R R'.
Proof.
  intros HS E. specialize (HS r). rewrite E in HS.
  destruct (h' !! r) as [R'|]; [| contradiction]. eauto.
Qed.

Lemma frame_refl s : frame s s.
Proof.
  repeat split; [apply same_shape_refl |]. exists []. symmetry. apply app_nil_r.
Qed.

Lemma frame_trans s1 s2 s3 : frame s1 s2 -> frame s2 s3 -> frame s1 s3.
Proof.
  intros (a & b & c & l & d) (a' & b' & c' & l' & d').
  repeat split; try congruence.
  - eapply same_shape_trans; eassumption.
  - exists (l ++ l'). rewrite d', d. symmetry. apply app_assoc.
Qed.

Lemma frame_set_heap s r R R' :
  heap s !! r = Some R -> same_links R R' ->
  frame s (set_heap (<[r := R']> (heap s)) s).
Proof.
  intros E HL. repeat split.
  - simpl. eapply same_shape_insert; eassumption.
  - exists []. simpl. symmetry. apply app_nil_r.
Qed.

Lemma frame_with_log s l : frame s (with_log (log s ++ l) s).
Proof.
  repeat split; [apply same_shape_refl |]. exists l. reflexivity.
Qed.

Section RootDecRef_frame.

Context {St : Store}.

Lemma frame_reclaimed c r R s :
  heap s !! r = Some R -> frame s (reclaimed c r R s).
Proof.
  intros E. unfold reclaimed.
  set (later := reclaim_scan (Node (root R)) (reclaimLater R)).
  apply (frame_trans s (set_heap (<[r := with_reclaimLater later R]> (heap s)) s)).
  - apply (frame_set_heap s r R); [exact E | repeat split].
  - apply (frame_with_log (set_heap (<[r := with_reclaimLater later R]> (heap s)) s)).
Qed.

Lemma rootDecRef_unlocked_frame fuel : forall c r s,
  frame s (state_of (rootDecRef_unlocked fuel c r s)).
Proof.
  induction fuel as [|fuel IH]; intros c r s.
  - simpl. apply frame_refl.
  - destruct r as [r|]; [| apply frame_refl].
    destruct (heap s !! r) as [R0|] eqn:E.
    + rewrite (rootDecRef_unlocked_step fuel c r R0 s E).
      set (R1 := with_refs _ R0).
      set (s1 := set_heap _ s).
      assert (F1 : frame s s1).
      { apply (frame_set_heap s r R0 R1 E). repeat split. }
      destruct (refs R1 >? 0); [exact F1 |].
      assert (F2 : frame s1 (state_of (cascade fuel R1 s1))).
      { unfold cascade.
        destruct (chainedCollection R1) as [c'|]; [| apply frame_refl].
        destruct (chainedRootNodeLoc R1) as [r'|]; [| apply frame_refl].
        apply IH. }
      destruct (cascade fuel R1 s1) as [[] s2 | p s2]; simpl in F2.
      * destruct (heap s2 !! r) as [R2|] eqn:E2; simpl.
        -- eapply frame_trans; [exact F1 |].
           eapply frame_trans; [exact F2 |].
           apply frame_reclaimed. exact E2.
        -- eapply frame_trans; eassumption.
      * simpl. eapply frame_trans; eassumption.
    + simpl. unfold bind, update, bind, load. rewrite E. apply frame_refl.
Qed.

Lemma chain_of_same_shape h h' r l :
  same_shape h h' -> chain_of h r l -> chain_of h' r l.
Proof.
  intros HS Hc. induction Hc as [r R E Hend | r R c' r' l E Hc1 Hc2 Hc IH].
  - destruct (same_shape_lookup h h' r R HS E) as (R' & E' & _ & _ & L1 & L2).
    apply (chain_end h' r R' E'). rewrite <- L1, <- L2. exact Hend.
  - destruct (same_shape_lookup h h' r R HS E) as (R' & E' & _ & _ & L1 & L2).
    apply (chain_step h' r R' c' r' l E'); [congruence | congruence | exact IH].
Qed.

(** Along a chain that ends, the cascade returns. *)
Lemma rootDecRef_unlocked_returns h r l :
  chain_of h r l ->
  forall fuel c s, same_shape h (heap s) -> (length l <= fuel)%nat ->
  exists s', rootDecRef_unlocked fuel c (Some r) s = Done tt s'.
Proof.
  induction 1 as [r R E Hend | r R c' r' l E Hc1 Hc2 Hc IH];
    intros fuel c s HS Hfuel.
  - destruct fuel as [|fuel]; [simpl in Hfuel; lia |].
    destruct (same_shape_lookup h (heap s) r R HS E) as (R0 & E0 & _ & _ & L1 & L2).
    rewrite (rootDecRef_unlocked_step fuel c r R0 s E0).
    set (R1 := with_refs _ R0). set (s1 := set_heap _ s).
    destruct (refs R1 >? 0); [eauto |].
    assert (Hcas : cascade fuel R1 s1 = Done tt s1).
    { unfold cascade. simpl. rewrite <- L1, <- L2.
      destruct Hend as [-> | ->]; [reflexivity |].
      destruct (chainedCollection R); reflexivity. }
    rewrite Hcas. subst s1. simpl. rewrite lookup_insert_eq. eauto.
  - destruct fuel as [|fuel]; [simpl in Hfuel; lia |].
    destruct (same_shape_lookup h (heap s) r R HS E) as (R0 & E0 & _ & _ & L1 & L2).
    rewrite (rootDecRef_unlocked_step fuel c r R0 s E0).
    set (R1 := with_refs _ R0). set (s1 := set_heap _ s).
    destruct (refs R1 >? 0); [eauto |].
    assert (HS1 : same_shape h (heap s1)).
    { eapply same_shape_trans; [exact HS |].
      subst s1. simpl. apply (same_shape_insert (heap s) r R0 R1 E0).
      repeat split. }
    unfold cascade. simpl. rewrite <- L1, <- L2, Hc1, Hc2.
    destruct (IH fuel c' s1 HS1) as (s2 & Hrun); [simpl in Hfuel; lia |].
    pose proof (rootDecRef_unlocked_frame fuel c' (Some r') s1) as F.
    rewrite Hrun in *. simpl in F. destruct F as (_ & _ & HS2 & _).
    assert (E1 : heap s1 !! r = Some R1) by (subst s1; simpl; apply lookup_insert_eq).
    destruct (same_shape_lookup _ _ r R1 HS2 E1) as (R2 & E2 & _).
    rewrite E2. eauto.
Qed.

End RootDecRef_frame.

(** ** Chains that end are shorter than the heap *)

Lemma chain_of_functional h r l1 :
  chain_of h r l1 -> forall l2, chain_of h r l2 -> l1 = l2.
Proof.
  induction 1 as [r R E Hend | r R c' r' l E Hc1 Hc2 Hc IH]; intros l2 H2.
  - inversion H2 as [? R2 E2 _ | ? R2 c2 r2 l' E2 Hd1 Hd2 _]; subst; [reflexivity |].
    rewrite E in E2. injection E2 as <-. destruct Hend; congruence.
  - inversion H2 as [? R2 E2 Hend | ? R2 c2 r2 l' E2 Hd1 Hd2 Hrest]; subst.
    + rewrite E in E2. injection E2 as <-. destruct Hend; congruence.
    + rewrite E in E2. injection E2 as <-.
      assert (r2 = r') by congruence. subst r2.
      f_equal. apply IH. exact Hrest.
Qed.

Lemma chain_of_suffix h r l :
  chain_of h r l ->
  forall x, x ∈ l -> exists suf, chain_of h x suf /\ (length suf <= length l)%nat.
Proof.
  induction 1 as [r R E Hend | r R c' r' l E Hc1 Hc2 Hc IH]; intros x Hx.
  - apply list_elem_of_singleton in Hx. subst x.
    exists [r]. split; [eapply chain_end; eassumption | simpl; lia].
  - apply elem_of_cons in Hx. destruct Hx as [-> | Hx].
    + exists (r :: l). split; [eapply chain_step; eassumption | simpl; lia].
    + destruct (IH x Hx) as (suf & Hs & Hl). exists suf.
      split; [exact Hs | simpl; lia].
Qed.

Lemma chain_of_NoDup h r l : chain_of h r l -> NoDup l.
Proof.
  induction 1 as [r R E Hend | r R c' r' l E Hc1 Hc2 Hc IH].
  - apply NoDup_singleton.
  - apply NoDup_cons. split; [| exact IH].
    intros Hin. destruct (chain_of_suffix h r' l Hc r Hin) as (suf & Hs & Hl).
    assert (Hfull : chain_of h r (r :: l)) by (eapply chain_step; eassumption).
    rewrite (chain_of_functional h r suf Hs (r :: l) Hfull) in Hl.
    simpl in Hl. lia.
Qed.

Lemma chain_of_dom h r l : chain_of h r l -> forall x, x ∈ l -> x ∈ dom h.
Proof.
  induction 1 as [r R E Hend | r R c' r' l E Hc1 Hc2 Hc IH]; intros x Hx.
  - apply list_elem_of_singleton in Hx. subst x. apply elem_of_dom. eauto.
  - apply elem_of_cons in Hx. destruct Hx as [-> | Hx].
    + apply elem_of_dom. eauto.
    + apply IH. exact Hx.
Qed.

Lemma chain_of_length h r l : chain_of h r l -> (length l <= size h)%nat.
Proof.
  intros Hc. rewrite <- (size_dom h).
  rewrite <- (size_list_to_set (C := gset rptr) l) by (eapply chain_of_NoDup; eassumption).
  apply subseteq_size. intros x Hx. apply elem_of_list_to_set in Hx.
  eapply chain_of_dom; eassumption.
Qed.

Section RootDecRef_claim.

Context {St : Store}.
Variable t : cptr.

(** C2.  [rootDecRef] decrements the count.  While the count stays
    above zero nothing else changes.  Otherwise, in this order: when
    both chain fields are set the chained successor is released, which
    cascades down the chain; the tree of the retired root is reclaimed
    with the slots to skip; each slot that is not [nil] is drained; the
    root's edge and then the [rootNodeLoc] go back to their pools.  On a
    chain that ends, the call returns. *)
Theorem rootDecRef_reclamation (fuel : nat) (c : cptr) (r : rptr)
    (R0 : rootNodeLoc) (s : State) :
  heap s !! r = Some R0 ->
  let R1 := with_refs (int64_wrap (refs R0 - 1)) R0 in
  let s1 := set_heap (<[r := R1]> (heap s)) s in
  (refs R1 > 0 -> rootDecRef_unlocked (S fuel) c (Some r) s = Done tt s1) /\
  (refs R1 <= 0 ->
   rootDecRef_unlocked (S fuel) c (Some r) s =
   match cascade fuel R1 s1 with
   | Panicked p s2 => Panicked p s2
   | Done _ s2 =>
       match heap s2 !! r with
       | None => Panicked (InvalidPointer r) s2
       | Some R2 => Done tt (reclaimed c r R2 s2)
       end
   end) /\
  (refs R1 <= 0 ->
   chainedCollection R0 = None \/ chainedRootNodeLoc R0 = None ->
   rootDecRef_unlocked (S fuel) c (Some r) s = Done tt (reclaimed c r R1 s1)) /\
  (forall l, chain_of (heap s) r l ->
             exists s', rootDecRef t (Some r) s = Done tt s' /\ frame s s').
Proof.
  intros E R1 s1.
  pose proof (rootDecRef_unlocked_step fuel c r R0 s E) as Hstep.
  cbv zeta in Hstep. fold R1 in Hstep. fold s1 in Hstep.
  split; [| split; [| split]].
  - intros Hpos. rewrite Hstep.
    destruct (refs R1 >? 0) eqn:Hc; [reflexivity | lia].
  - intros Hle. rewrite Hstep.
    destruct (refs R1 >? 0) eqn:Hc; [lia | reflexivity].
  - intros Hle Hend. rewrite Hstep.
    destruct (refs R1 >? 0) eqn:Hc; [lia |].
    assert (Hcas : cascade fuel R1 s1 = Done tt s1).
    { unfold cascade. simpl.
      destruct Hend as [-> | ->]; [reflexivity |].
      destruct (chainedCollection R0); reflexivity. }
    rewrite Hcas. subst s1. simpl. rewrite lookup_insert_eq. reflexivity.
  - intros l Hchain. unfold rootDecRef.
    destruct (rootDecRef_unlocked_returns (heap s) r l Hchain
                (S (size (heap s))) t s (same_shape_refl _)) as (s' & Hrun).
    { pose proof (chain_of_length (heap s) r l Hchain). lia. }
    exists s'. split; [exact Hrun |].
    pose proof (rootDecRef_unlocked_frame (S (size (heap s))) t (Some r) s) as F.
    rewrite Hrun in F. exact F.
Qed.

End RootDecRef_claim.

Lemma rootDecRef_reclamation_witness :
  exists s',
    rootDecRef_unlocked (St := mem_store) 2 7%nat (Some 0%nat) retired_pair = Done tt s' /\
    log s' =
      [EvReclaimNodes 7%nat None (Some (None, None));
       EvFreeNodeLoc 7%nat NL_empty;
       EvFreeRootNodeLoc 7%nat 1%nat;
       EvReclaimNodes 7%nat (Some (leaf 0 key_a val_1 5))
                      (Some (Some (leaf 1 key_b val_2 3), None));
       EvReclaimNodes 7%nat (Some (leaf 1 key_b val_2 3)) None;
       EvFreeNodeLoc 7%nat (NL_mem (leaf 0 key_a val_1 5));
       EvFreeRootNodeLoc 7%nat 0%nat].
Proof.
  destruct (rootDecRef_reclamation (St := mem_store) 7%nat 1 7%nat 0%nat
              {| refs := 1; root := NL_mem (leaf 0 key_a val_1 5);
                 next := None; chainedCollection := Some 7%nat;
                 chainedRootNodeLoc := Some 1%nat;
                 reclaimLater := (Some (leaf 1 key_b val_2 3), None) |}
              retired_pair eq_refl) as (_ & Hzero & _ & _).
  assert (Hrun := Hzero ltac:(vm_compute; discriminate)).
  eexists. split.
  - etransitivity; [exact Hrun | vm_compute; reflexivity].
  - vm_compute. reflexivity.
Defined.

(** ** Reasoning about runs *)

Lemma post_elim {A} (m : M A) Q s a s' : post m Q s -> m s = Done a s' -> Q a s'.
Proof. unfold post. intros HP E. rewrite E in HP. exact HP. Qed.

Lemma post_intro {A} (m : M A) (Q : A -> State -> Prop) s :
  (forall a s', m s = Done a s' -> Q a s') -> post m Q s.
Proof. unfold post. intros HQ. destruct (m s); [apply HQ; reflexivity | exact I]. Qed.

Lemma post_ret {A} (a : A) (Q : A -> State -> Prop) s : Q a s -> post (ret a) Q s.
Proof. intros HQ. exact HQ. Qed.

Lemma post_bind {A B} (m : M A) (k : A -> M B) Q s :
  post m (fun a s' => post (k a) Q s') s -> post (bind m k) Q s.
Proof. unfold post, bind. destruct (m s); auto. Qed.

Lemma post_weaken {A} (m : M A) (Q Q' : A -> State -> Prop) s :
  post m Q s -> (forall a s', Q a s' -> Q' a s') -> post m Q' s.
Proof. unfold post. destruct (m s); auto. Qed.

Lemma post_defer {A} (d : M unit) (body : M A) Q s :
  post body (fun a s1 => post d (fun _ s2 => Q a s2) s1) s ->
  post (defer d body) Q s.
Proof.
  unfold post, defer. destruct (body s) as [a s1 | p s1].
  - destruct (d s1); auto.
  - destruct (d s1); auto.
Qed.

Lemma post_keeps_root {A} (m : M A) s :
  keeps_root m -> post m (fun _ s' => c_root s' = c_root s) s.
Proof. intros K. specialize (K s). unfold post. destruct (m s); [exact K | exact I]. Qed.

Lemma keeps_root_ret {A} (a : A) : keeps_root (ret a).
Proof. intros s. reflexivity. Qed.

Lemma keeps_root_throw {A} p : keeps_root (@throw A p).
Proof. intros s. reflexivity. Qed.

Lemma keeps_root_bind {A B} (m : M A) (k : A -> M B) :
  keeps_root m -> (forall a, keeps_root (k a)) -> keeps_root (bind m k).
Proof.
  intros Km Kk s. unfold bind. specialize (Km s).
  destruct (m s) as [a s1 | p s1]; simpl in *; [| exact Km].
  rewrite (Kk a s1). exact Km.
Qed.

Lemma keeps_root_defer {A} (d : M unit) (body : M A) :
  keeps_root d -> keeps_root body -> keeps_root (defer d body).
Proof.
  intros Kd Kb s. unfold defer. specialize (Kb s).
  destruct (body s) as [a s1 | p s1]; simpl in *;
    specialize (Kd s1); destruct (d s1); simpl in *; congruence.
Qed.

Lemma keeps_root_load r : keeps_root (load r).
Proof.
  intros s. unfold load. destruct r as [a|]; [| reflexivity].
  destruct (heap s !! a); reflexivity.
Qed.

Lemma keeps_root_update r f : keeps_root (update r f).
Proof.
  intros s. unfold update, bind, load. destruct r as [a|]; [| reflexivity].
  destruct (heap s !! a); reflexivity.
Qed.

Lemma keeps_root_emit e : keeps_root (emit e).
Proof. intros s. reflexivity. Qed.

Lemma keeps_root_frame {A} (m : M A) :
  (forall s, frame s (state_of (m s))) -> keeps_root m.
Proof. intros F s. destruct (F s) as (E & _). exact E. Qed.

Lemma keeps_root_mkNode i l r nn nb : keeps_root (mkNode i l r nn nb).
Proof. intros s. reflexivity. Qed.

Lemma keeps_root_mkRootNodeLoc r : keeps_root (mkRootNodeLoc r).
Proof. intros s. reflexivity. Qed.

Lemma keeps_root_lift_alloc {A} (f : nat -> A * nat) : keeps_root (lift_alloc f).
Proof. intros s. unfold lift_alloc. destruct (f (next_addr s)). reflexivity. Qed.

Lemma keeps_root_freeNodeLoc t nl : keeps_root (freeNodeLoc t nl).
Proof. intros s. reflexivity. Qed.

Lemma keeps_root_markReclaimable t n : keeps_root (markReclaimable t n).
Proof. intros s. reflexivity. Qed.

Section Keeps.

Context {St : Store}.
Variable t : cptr.

Lemma keeps_root_rootDecRef r : keeps_root (rootDecRef t r).
Proof.
  apply keeps_root_frame. intros s. unfold rootDecRef.
  apply rootDecRef_unlocked_frame.
Qed.

Lemma keeps_root_rootAddRef : keeps_root rootAddRef.
Proof.
  unfold rootAddRef. apply keeps_root_bind; [intros s; reflexivity |].
  intros cur. apply keeps_root_bind; [apply keeps_root_update |].
  intros _. apply keeps_root_bind; [intros s; reflexivity |].
  intros cur'. apply keeps_root_ret.
Qed.

Lemma keeps_root_GetItem key withValue : keeps_root (GetItem t key withValue).
Proof.
  unfold GetItem. apply keeps_root_bind; [apply keeps_root_rootAddRef |].
  intros rnl. apply keeps_root_defer; [apply keeps_root_rootDecRef |].
  apply keeps_root_bind; [apply keeps_root_load |].
  intros R. apply keeps_root_ret.
Qed.

(** A failed CAS is a state that did not change. *)
Lemma post_rootCAS prev next s :
  post (rootCAS t prev next)
       (fun ok s' => if ok then c_root s' = next else s' = s) s.
Proof.
  apply post_intro. intros [|] s' Hrun.
  - apply (rootCAS_true_installs t prev next s s' Hrun).
  - apply (rootCAS_false_unchanged t prev next s s' Hrun).
Qed.

End Keeps.

Lemma post_bind_keeps {A B} (m : M A) (k : A -> M B) Q s :
  keeps_root m ->
  (forall a s', c_root s' = c_root s -> post (k a) Q s') ->
  post (bind m k) Q s.
Proof.
  intros K Hk. apply post_bind. apply post_intro. intros a s' E.
  apply Hk. specialize (K s). rewrite E in K. exact K.
Qed.

Lemma post_bind_any {A B} (m : M A) (k : A -> M B) Q s :
  (forall a s', post (k a) Q s') -> post (bind m k) Q s.
Proof.
  intros Hk. apply post_bind. apply post_intro. intros a s' _. apply Hk.
Qed.

Lemma post_defer_keeps {A} (d : M unit) (body : M A) (Q : A -> option rptr -> Prop) s :
  keeps_root d ->
  post body (fun a s1 => Q a (c_root s1)) s ->
  post (defer d body) (fun a s2 => Q a (c_root s2)) s.
Proof.
  intros K Hb. apply post_defer. eapply post_weaken; [exact Hb |].
  intros a s1 HQ. apply post_intro. intros [] s2 E.
  specialize (K s1). rewrite E in K. simpl in K. rewrite K. exact HQ.
Qed.

(** ** SetItem: validation *)

Section Validation.

Context {St : Store}.
Variable t : cptr.
Variable others : State -> State.

Lemma is_nil_true {A} (o : option A) : is_nil o = true <-> o = None.
Proof. destruct o; simpl; split; congruence. Qed.

Lemma checks_rejected i :
  rejected i <-> checks i = true \/ (Priority i <? 0) = true.
Proof.
  unfold rejected, checks. rewrite !orb_true_iff, !is_nil_true.
  rewrite Z.gtb_ltb, !Z.ltb_lt, Z.eqb_eq. intuition lia.
Qed.

Lemma SetItem_rejects i s :
  rejected i ->
  exists e, SetItem t others i s = Done (Some e) s /\
            is_validation_error (Some e) = true.
Proof.
  intros Hr. apply checks_rejected in Hr. unfold SetItem. fold (checks i).
  destruct (checks i).
  - exists ErrKeyValMissingOrTooLong. split; reflexivity.
  - destruct Hr as [Hr | Hr]; [discriminate |]. rewrite Hr.
    exists ErrPriorityNegative. split; reflexivity.
Qed.

Lemma SetItem_accepted_unfold i :
  ~ rejected i ->
  SetItem t others i =
  (rnl <- rootAddRef ;;
   defer (rootDecRef t rnl)
     (R <- load rnl ;;
      let root := root R in
      yield others ;;;
      n <- mkNode IL_empty NL_empty NL_empty 1
             (uint64_wrap (len (Key i) + NumValBytes i)) ;;
      let n := set_item n i in
      let nloc := mkNodeLoc (Some n) in
      res <- lift_alloc (union root nloc) ;;
      let '(r, err) := res in
      if negb (is_nil err) then ret (of_store err)
      else
        rnlNew <- mkRootNodeLoc r ;;
        update rnlNew
          (fun R' => with_reclaimLater
                       (set_reclaimLater 0 (Some n) (reclaimLater R')) R') ;;;
        ok <- rootCAS t rnl rnlNew ;;
        if negb ok then ret (Some ErrConcurrentMutation)
        else
          rootDecRef t rnl ;;;
          freeNodeLoc t nloc ;;;
          ret None)).
Proof.
  intros Hr. unfold SetItem. fold (checks i).
  destruct (checks i) eqn:E1.
  - exfalso. apply Hr. apply checks_rejected. left. exact E1.
  - destruct (Priority i <? 0) eqn:E2; [| reflexivity].
    exfalso. apply Hr. apply checks_rejected. right. exact E2.
Qed.

Lemma SetItem_accepts i s :
  ~ rejected i ->
  post (SetItem t others i) (fun e _ => is_validation_error e = false) s.
Proof.
  intros Hr. rewrite (SetItem_accepted_unfold i Hr).
  apply post_bind_any. intros rnl s1.
  apply post_defer. apply post_bind_any. intros R s2.
  assert (Hd : forall e s3, is_validation_error e = false ->
             post (rootDecRef t rnl)
                  (fun _ _ => is_validation_error e = false) s3).
  { intros e s3 He. apply post_intro. intros _ _ _. exact He. }
  apply post_bind_any. intros _ s3.
  apply post_bind_any. intros n s4.
  apply post_bind_any. intros [r err] s5.
  destruct err as [e|]; simpl.
  - apply post_ret. apply Hd. reflexivity.
  - apply post_bind_any. intros rnlNew s6.
    apply post_bind_any. intros _ s7.
    apply post_bind_any. intros ok s8.
    destruct ok; simpl.
    + apply post_bind_any. intros _ s9.
      apply post_bind_any. intros _ s10.
      apply post_ret. apply Hd. reflexivity.
    + apply post_ret. apply Hd. reflexivity.
Qed.

(** C6.  [SetItem] returns one of its two validation errors exactly
    when the key is nil, empty or longer than 65535 bytes, the value is
    nil, or the priority is negative, and then the state is untouched; an
    item with a key of 65535 bytes, a value and a non-negative priority
    is not rejected. *)
Theorem SetItem_validation (i : Item) (s : State) :
  (rejected i ->
   exists e, SetItem t others i s = Done (Some e) s /\
             is_validation_error (Some e) = true) /\
  (forall e s', SetItem t others i s = Done e s' ->
                is_validation_error e = true -> rejected i /\ s' = s) /\
  (forall k v, Key i = Some k -> len (Key i) = 65535 -> Val i = Some v ->
               0 <= Priority i ->
               ~ rejected i /\
               forall e s', SetItem t others i s = Done e s' ->
                            is_validation_error e = false).
Proof.
  split; [apply SetItem_rejects |]. split.
  - intros e s' Hrun Hv.
    assert (Hrej : rejected i).
    { destruct (checks i) eqn:E1.
      - apply checks_rejected. left. exact E1.
      - destruct (Priority i <? 0) eqn:E2.
        + apply checks_rejected. right. exact E2.
        + exfalso.
          assert (Hn : ~ rejected i).
          { rewrite checks_rejected. intros [H1 | H1]; congruence. }
          pose proof (post_elim _ _ _ _ _ (SetItem_accepts i s Hn) Hrun) as Hf.
          simpl in Hf. congruence. }
    split; [exact Hrej |].
    destruct (SetItem_rejects i s Hrej) as (e' & Hrun' & _). congruence.
  - intros k v Hk Hlen Hv Hp.
    assert (Hn : ~ rejected i).
    { unfold rejected. rewrite Hlen, Hk, Hv.
      intros [H1 | [H1 | [H1 | [H1 | H1]]]]; try discriminate; lia. }
    split; [exact Hn |]. intros e s' Hrun.
    apply (post_elim _ _ _ _ _ (SetItem_accepts i s Hn) Hrun).
Qed.

End Validation.

Lemma SetItem_validation_witness :
  ~ rejected big_item /\
  forall e s', SetItem (St := mem_store) 0%nat id big_item init = Done e s' ->
               is_validation_error e = false.
Proof.
  destruct (SetItem_validation (St := mem_store) 0%nat id big_item init)
    as (_ & _ & Hok).
  apply (Hok big_key val_1).
  - reflexivity.
  - vm_compute. reflexivity.
  - reflexivity.
  - simpl. lia.
Defined.

(** ** Failed mutations install nothing *)

Lemma post_load r s (Q : rootNodeLoc -> State -> Prop) :
  (forall R, Q R s) -> post (load r) Q s.
Proof.
  intros HQ. unfold post, load. destruct r as [a|]; [| exact I].
  destruct (heap s !! a); [apply HQ | exact I].
Qed.

Lemma post_load_bind {B} r (k : rootNodeLoc -> M B) Q s :
  (forall R, post (k R) Q s) -> post (bind (load r) k) Q s.
Proof. intros Hk. apply post_bind. apply post_load. exact Hk. Qed.

Ltac keep E :=
  apply post_bind_keeps;
  [ first [ apply keeps_root_mkNode | apply keeps_root_lift_alloc
          | apply keeps_root_mkRootNodeLoc | apply keeps_root_update
          | apply keeps_root_rootDecRef | apply keeps_root_freeNodeLoc
          | apply keeps_root_markReclaimable | apply keeps_root_GetItem
          | apply keeps_root_ret ]
  | let a := fresh "a" in
    let s := fresh "s" in
    let E' := fresh "E" in
    intros a s E'; rewrite E in E'; clear E; rename E' into E; revert a ].

Section Failures.

Context {St : Store}.
Variable t : cptr.
Variable others : State -> State.

Lemma SetItem_failure_root i s :
  ~ rejected i ->
  post (SetItem t others i)
       (fun e s' => e <> None ->
                    c_root s' = c_root (others (state_of (rootAddRef s)))) s.
Proof.
  intros Hr. rewrite (SetItem_accepted_unfold t others i Hr).
  apply post_bind. apply post_intro. intros rnl s1 E1. rewrite E1. simpl.
  apply (post_defer_keeps _ _ (fun e r => e <> None -> r = c_root (others s1)));
    [apply keeps_root_rootDecRef |].
  apply post_load_bind. intros R.
  apply post_bind. unfold post at 1, yield.
  generalize (others s1). intros x.
  match goal with
  | |- post ?m ?Q x =>
      enough (Hgen : forall s2, c_root s2 = c_root x -> post m Q s2)
        by (apply Hgen; reflexivity)
  end.
  intros s2 E.
  keep E. intros n. keep E. intros [r err].
  destruct err as [e|]; simpl.
  - apply post_ret. intros _. exact E.
  - keep E. intros rnlNew. keep E. intros _.
    apply post_bind. eapply post_weaken; [apply post_rootCAS |].
    intros ok s' Hok. destruct ok; simpl.
    + apply post_bind_any. intros _ z3. apply post_bind_any. intros _ z4.
      apply post_ret. congruence.
    + subst s'. apply post_ret. intros _. exact E.
Qed.

Lemma Delete_failure_root key s :
  post (Delete t others key)
       (fun res s' => snd res <> None ->
                      fst res = false /\
                      c_root s' = c_root (others (state_of (rootAddRef s)))) s.
Proof.
  unfold Delete.
  apply post_bind. apply post_intro. intros rnl s1 E1. rewrite E1. simpl.
  apply (post_defer_keeps _ _
           (fun res r => snd res <> None ->
                         fst res = false /\ r = c_root (others s1)));
    [apply keeps_root_rootDecRef |].
  apply post_load_bind. intros R.
  apply post_bind. unfold post at 1, yield.
  generalize (others s1). intros x.
  match goal with
  | |- post ?m ?Q x =>
      enough (Hgen : forall s2, c_root s2 = c_root x -> post m Q s2)
        by (apply Hgen; reflexivity)
  end.
  intros s2 E.
  keep E. intros [i err].
  destruct (negb (is_nil err) || is_nil i).
  { apply post_ret. simpl. intros _. split; [reflexivity | exact E]. }
  keep E. intros [[[l m] r] err'].
  destruct err' as [e|]; simpl.
  { apply post_ret. simpl. intros _. split; [reflexivity | exact E]. }
  destruct (isEmpty m).
  { apply post_ret. simpl. intros _. split; [reflexivity | exact E]. }
  keep E. intros _. keep E. intros _. keep E. intros [j err''].
  destruct err'' as [e|]; simpl.
  { apply post_ret. simpl. intros _. split; [reflexivity | exact E]. }
  keep E. intros rnlNew.
  apply post_bind_keeps.
  { destruct (negb (isEmpty l)); [apply keeps_root_update | apply keeps_root_ret]. }
  intros _ z3 F3. rewrite E in F3. clear E.
  apply post_bind_keeps.
  { destruct (negb (isEmpty r)); [apply keeps_root_update | apply keeps_root_ret]. }
  intros _ z4 F4. rewrite F3 in F4. clear F3.
  apply post_bind. eapply post_weaken; [apply post_rootCAS |].
  intros ok s' Hok. destruct ok; simpl.
  - apply post_bind_any. intros _ z5. apply post_bind_any. intros _ z6.
    apply post_bind_any. intros _ z7. apply post_ret. simpl. congruence.
  - subst s'. apply post_ret. simpl. intros _. split; [reflexivity | exact F4].
Qed.

(** C4.  An error return of [SetItem] or [Delete] leaves the published
    root alone: after a validation error the state is the one before the
    call; after any other error the root is the one that was there when
    the other goroutines had their turn, so the root before the call
    when they did not assign it.  Nothing the call made is installed. *)
Theorem failed_mutation_keeps_root (s : State) :
  (forall i e s',
      SetItem t others i s = Done (Some e) s' ->
      (is_validation_error (Some e) = true -> s' = s) /\
      (is_validation_error (Some e) = false ->
       c_root s' = c_root (others (state_of (rootAddRef s)))) /\
      ((forall x, c_root (others x) = c_root x) -> c_root s' = c_root s)) /\
  (forall key b e s',
      Delete t others key s = Done (b, Some e) s' ->
      b = false /\
      c_root s' = c_root (others (state_of (rootAddRef s))) /\
      ((forall x, c_root (others x) = c_root x) -> c_root s' = c_root s)).
Proof.
  split.
  - intros i e s' Hrun.
    assert (Hrej : is_validation_error (Some e) = true -> rejected i /\ s' = s).
    { intros Hv. destruct (checks_rejected i) as (_ & Hback).
      assert (Hr : rejected i).
      { destruct (checks i) eqn:E1; [apply Hback; left; reflexivity |].
        destruct (Priority i <? 0) eqn:E2; [apply Hback; right; reflexivity |].
        exfalso.
        assert (Hn : ~ rejected i).
        { rewrite checks_rejected. intros [H1 | H1]; congruence. }
        pose proof (post_elim _ _ _ _ _ (SetItem_accepts t others i s Hn) Hrun) as Hf.
        cbv beta in Hf. congruence. }
      split; [exact Hr |].
      destruct (SetItem_rejects t others i s Hr) as (e' & Hrun' & _). congruence. }
    assert (Hgen : is_validation_error (Some e) = false ->
                   c_root s' = c_root (others (state_of (rootAddRef s)))).
    { intros Hv.
      assert (Hn : ~ rejected i).
      { intros Hr. destruct (SetItem_rejects t others i s Hr) as (e' & Hrun' & He').
        congruence. }
      apply (post_elim _ _ _ _ _ (SetItem_failure_root i s Hn) Hrun).
      discriminate. }
    split; [| split].
    + intros Hv. apply (Hrej Hv).
    + exact Hgen.
    + intros Hseq. destruct (is_validation_error (Some e)) eqn:Hv.
      * destruct (Hrej eq_refl) as (_ & ->). reflexivity.
      * rewrite (Hgen eq_refl), Hseq. apply keeps_root_rootAddRef.
  - intros key b e s' Hrun.
    destruct (post_elim _ _ _ _ _ (Delete_failure_root key s) Hrun) as (Hb & Hroot);
      [discriminate |].
    simpl in Hb. split; [exact Hb |]. split; [exact Hroot |].
    intros Hseq. rewrite Hroot, Hseq. apply keeps_root_rootAddRef.
Qed.

End Failures.

Lemma failed_mutation_keeps_root_witness :
  exists s',
    SetItem (St := mem_store) 0%nat rival item_a init
    = Done (Some ErrConcurrentMutation) s' /\
    c_root s' = c_root (rival (state_of (rootAddRef init))) /\
    c_root s' = Some 1%nat.
Proof.
  set (o := SetItem (St := mem_store) 0%nat rival item_a init).
  assert (Hrun : o = Done (Some ErrConcurrentMutation) (state_of o))
    by (vm_compute; reflexivity).
  exists (state_of o). split; [exact Hrun |].
  destruct (failed_mutation_keeps_root (St := mem_store) 0%nat rival init)
    as (Hset & _).
  destruct (Hset item_a ErrConcurrentMutation (state_of o) Hrun)
    as (_ & Hroot & _).
  split; [apply Hroot; reflexivity |].
  vm_compute. reflexivity.
Defined.

(** ** UnmarshalJSON *)

Section Unmarshal.

Context {St : Store}.
Variable t : cptr.

Lemma closeCollection_clears s : c_root (state_of (closeCollection t s)) = None.
Proof.
  unfold closeCollection, bind, get_root, set_root.
  destruct (is_nil (c_root s)); [reflexivity |].
  match goal with
  | |- c_root (state_of (rootDecRef t ?r ?s1)) = None =>
      rewrite (keeps_root_rootDecRef t r s1)
  end.
  reflexivity.
Qed.

(** C10.  [UnmarshalJSON] installs the decoded location through a CAS
    from [nil]: on a collection whose root is not [nil] it returns an
    error and the root is the one before the call; it returns without
    error only from a [nil] root, as before the first root or after
    [closeCollection], and then the root is a new [rootNodeLoc], held once
    and without chain or slots, whose edge has no node in memory and
    names the decoded location: [Loc] gives that location back when it
    is not the empty one, and the edge is the empty one otherwise; no
    other [rootNodeLoc] is touched. *)
Theorem UnmarshalJSON_from_nil_only (d : bytes) (s : State) :
  (forall r, c_root s = Some r ->
             exists e s', UnmarshalJSON t d s = Done (Some e) s' /\
                          c_root s' = c_root s) /\
  (forall s', UnmarshalJSON t d s = Done None s' ->
              c_root s = None /\
              exists p a R,
                json_Unmarshal d = Some p /\ c_root s' = Some a /\
                heap s !! a = None /\ heap s' !! a = Some R /\
                root R = set_loc NL_empty p /\ refs R = 1 /\
                Node (root R) = None /\
                (ploc_eqb p ploc_empty = false -> Loc (root R) = Some p) /\
                (ploc_eqb p ploc_empty = true -> root R = NL_empty) /\
                next R = None /\ chainedCollection R = None /\
                chainedRootNodeLoc R = None /\ reclaimLater R = (None, None) /\
                (forall b, b <> a -> heap s' !! b = heap s !! b)) /\
  (forall p, c_root s = None -> json_Unmarshal d = Some p ->
             exists s', UnmarshalJSON t d s = Done None s') /\
  c_root (state_of (closeCollection t s)) = None.
Proof.
  split; [| split; [| split]].
  - intros r Hr. unfold UnmarshalJSON.
    destruct (json_Unmarshal d) as [p|].
    + unfold bind, mkRootNodeLoc. simpl.
      rewrite rootCAS_lost by (simpl; congruence).
      simpl. eexists _, _. split; reflexivity.
    + eexists _, _. split; reflexivity.
  - intros s' Hrun. unfold UnmarshalJSON in Hrun.
    destruct (json_Unmarshal d) as [p|]; [| discriminate].
    unfold bind, mkRootNodeLoc in Hrun. simpl in Hrun.
    match type of Hrun with
    | context [rootCAS t None (Some ?a) ?s1] =>
        destruct (rootCAS t None (Some a) s1) as [[|] s2 | q s2] eqn:Hcas;
          try discriminate;
          destruct (rootCAS_true_installs t None (Some a) s1 s2 Hcas) as (H1 & H2);
          simpl in H1;
          rewrite (rootCAS_nil t (Some a) s1 H1) in Hcas
    end.
    injection Hcas as <-. simpl in Hrun. injection Hrun as <-.
    split; [exact H1 |].
    eexists p, _, _. split; [reflexivity |]. split; [reflexivity |].
    split; [apply not_elem_of_dom; apply is_fresh |].
    split; [simpl; apply lookup_insert_eq |].
    split; [reflexivity |]. split; [reflexivity |].
    cbn [root next chainedCollection chainedRootNodeLoc reclaimLater].
    unfold set_loc. cbn [Node].
    split; [destruct (ploc_eqb p ploc_empty);
              [reflexivity | destruct (readNode p); reflexivity] |].
    split; [intros ->; destruct (readNode p); reflexivity |].
    split; [intros ->; reflexivity |].
    repeat (split; [reflexivity |]).
    intros b Hb. simpl. apply lookup_insert_ne. congruence.
  - intros p Hr Hj. unfold UnmarshalJSON. rewrite Hj.
    unfold bind, mkRootNodeLoc. simpl.
    rewrite rootCAS_nil by exact Hr. simpl. eexists. reflexivity.
  - apply closeCollection_clears.
Qed.

End Unmarshal.

Lemma UnmarshalJSON_from_nil_only_witness :
  (exists e s', UnmarshalJSON (St := disk_store) 0%nat [] init = Done (Some e) s' /\
                c_root s' = c_root init) /\
  (exists s' a R,
     UnmarshalJSON (St := disk_store) 0%nat [] unpublished = Done None s' /\
     c_root s' = Some a /\ heap s' !! a = Some R /\
     Node (root R) = None /\
     Loc (root R) = Some {| Offset := 8; Length := 16 |}).
Proof.
  destruct (UnmarshalJSON_from_nil_only (St := disk_store) 0%nat [] init)
    as (Hbusy & _).
  destruct (UnmarshalJSON_from_nil_only (St := disk_store) 0%nat [] unpublished)
    as (_ & Hdone & Hnil & _).
  split.
  - apply (Hbusy 0%nat). reflexivity.
  - destruct (Hnil {| Offset := 8; Length := 16 |} eq_refl eq_refl) as (s' & Hrun).
    destruct (Hdone s' Hrun)
      as (_ & p & a & R & Hp & Ha & _ & ER & _ & _ & Hnode & Hloc & _).
    injection Hp as <-.
    exists s', a, R. split; [exact Hrun |]. split; [exact Ha |].
    split; [exact ER |]. split; [exact Hnode |].
    apply Hloc. reflexivity.
Defined.

(** ** Runs from a collection at rest *)

Lemma with_refs_refs z R : refs (with_refs z R) = z.
Proof. reflexivity. Qed.

Lemma with_refs_twice z z' R : with_refs z (with_refs z' R) = with_refs z R.
Proof. reflexivity. Qed.

Lemma with_refs_same R : with_refs (refs R) R = R.
Proof. destruct R; reflexivity. Qed.

Lemma set_heap_same s : set_heap (heap s) s = s.
Proof. destruct s; reflexivity. Qed.

Lemma set_heap_twice h h' s : set_heap h (set_heap h' s) = set_heap h s.
Proof. reflexivity. Qed.

Lemma rootAddRef_run s r0 R0 :
  c_root s = Some r0 -> heap s !! r0 = Some R0 ->
  rootAddRef s =
  Done (Some r0)
       (set_heap (<[r0 := with_refs (int64_wrap (refs R0 + 1)) R0]> (heap s)) s).
Proof.
  intros Hr E. unfold rootAddRef, bind, get_root. rewrite Hr.
  rewrite (update_Some r0 R0 _ s E). simpl. rewrite Hr. reflexivity.
Qed.

Section Runs.

Context {St : Store}.
Variable t : cptr.

(** Releasing a reference that is not the last one. *)
Lemma rootDecRef_held s r R :
  heap s !! r = Some R -> int64_wrap (refs R - 1) > 0 ->
  rootDecRef t (Some r) s =
  Done tt (set_heap (<[r := with_refs (int64_wrap (refs R - 1)) R]> (heap s)) s).
Proof.
  intros E Hpos. unfold rootDecRef.
  rewrite (rootDecRef_unlocked_step (size (heap s)) t r R s E).
  cbn [refs with_refs].
  destruct (int64_wrap (refs R - 1) >? 0) eqn:Hc; [reflexivity | lia].
Qed.

(** Releasing the last reference of an unchained root. *)
Lemma rootDecRef_last s r R :
  heap s !! r = Some R -> int64_wrap (refs R - 1) <= 0 ->
  chainedCollection R = None \/ chainedRootNodeLoc R = None ->
  rootDecRef t (Some r) s =
  Done tt (reclaimed t r (with_refs (int64_wrap (refs R - 1)) R)
             (set_heap (<[r := with_refs (int64_wrap (refs R - 1)) R]> (heap s)) s)).
Proof.
  intros E Hle Hend. unfold rootDecRef.
  rewrite (rootDecRef_unlocked_step (size (heap s)) t r R s E).
  cbn [refs with_refs].
  destruct (int64_wrap (refs R - 1) >? 0) eqn:Hc; [lia |].
  assert (Hcas : forall s1,
            cascade (size (heap s)) (with_refs (int64_wrap (refs R - 1)) R) s1
            = Done tt s1).
  { intros s1. unfold cascade. simpl.
    destruct Hend as [-> | ->]; [reflexivity |].
    destruct (chainedCollection R); reflexivity. }
  rewrite Hcas. simpl. rewrite lookup_insert_eq. reflexivity.
Qed.

(** A reader takes a reference and gives it back. *)
Lemma reader_run {A} (k : rootNodeLoc -> M A) (v : A) s r0 R0 :
  c_root s = Some r0 -> heap s !! r0 = Some R0 ->
  1 <= refs R0 < 2 ^ 62 ->
  (forall s', k (with_refs (refs R0 + 1) R0) s' = Done v s') ->
  (rnl <- rootAddRef ;;
   defer (rootDecRef t rnl) (R <- load rnl ;; k R)) s
  = Done v s.
Proof.
  intros Hr E Hrefs Hk. unfold bind at 1.
  rewrite (rootAddRef_run s r0 R0 Hr E).
  rewrite int64_wrap_id by (unfold int64_range; lia).
  set (R1 := with_refs (refs R0 + 1) R0).
  set (s1 := set_heap (<[r0 := R1]> (heap s)) s).
  assert (E1 : heap s1 !! r0 = Some R1) by apply lookup_insert_eq.
  unfold defer, bind. rewrite (load_Some r0 R1 s1 E1). rewrite Hk.
  rewrite (rootDecRef_held s1 r0 R1 E1).
  - subst s1 R1. simpl. rewrite insert_insert_eq.
    replace (refs R0 + 1 - 1) with (refs R0) by lia.
    rewrite int64_wrap_id by (unfold int64_range; lia).
    rewrite with_refs_twice, with_refs_same, insert_id by exact E.
    rewrite set_heap_twice, set_heap_same. reflexivity.
  - subst R1. simpl. replace (refs R0 + 1 - 1) with (refs R0) by lia.
    rewrite int64_wrap_id by (unfold int64_range; lia). lia.
Qed.

Lemma GetItem_run key withValue s r0 R0 :
  c_root s = Some r0 -> heap s !! r0 = Some R0 -> 1 <= refs R0 < 2 ^ 62 ->
  GetItem t key withValue s = Done (GetItem_loop key withValue (root R0)) s.
Proof.
  intros Hr E Hrefs. unfold GetItem.
  apply (reader_run _ _ s r0 R0 Hr E Hrefs). reflexivity.
Qed.

Lemma Get_run key s r0 R0 :
  c_root s = Some r0 -> heap s !! r0 = Some R0 -> 1 <= refs R0 < 2 ^ 62 ->
  Get t key s =
  Done (match GetItem_loop key true (root R0) with
        | (_, Some e) => (None, Some e)
        | (Some it, None) => (Val it, None)
        | (None, None) => (None, None)
        end) s.
Proof.
  intros Hr E Hrefs. unfold Get, bind.
  rewrite (GetItem_run key true s r0 R0 Hr E Hrefs).
  destruct (GetItem_loop key true (root R0)) as [[it|] [e|]]; reflexivity.
Qed.

Lemma GetTotals_run s r0 R0 :
  c_root s = Some r0 -> heap s !! r0 = Some R0 -> 1 <= refs R0 < 2 ^ 62 ->
  GetTotals t s =
  Done (match read (root R0) with
        | (Some nd, None) => (numNodes nd, numBytes nd, None)
        | (_, err) => (0, 0, of_store err)
        end) s.
Proof.
  intros Hr E Hrefs. unfold GetTotals.
  apply (reader_run _ _ s r0 R0 Hr E Hrefs). intros s'. simpl.
  destruct (root R0) as [|nd|l nd|l nd|l]; reflexivity.
Qed.

End Runs.

Lemma fresh_not_in (h : gmap rptr rootNodeLoc) : h !! fresh (dom h) = None.
Proof. apply not_elem_of_dom. apply is_fresh. Qed.

Lemma dom_insert_present (h : gmap rptr rootNodeLoc) r R R' :
  h !! r = Some R -> dom (<[r := R']> h) = dom h.
Proof.
  intros E. rewrite dom_insert_L.
  assert (Hin : r ∈ dom h) by (apply elem_of_dom; eauto).
  apply subseteq_union_1_L. apply singleton_subseteq_l. exact Hin.
Qed.

Section Mutations.

Context {St : Store}.
Variable t : cptr.

Lemma SetItem_run i s r0 R0 :
  ~ rejected i -> quiescent s r0 R0 ->
  let n := singleton (next_addr s) i in
  SetItem t id i s =
  match union (root R0) (NL_mem n) (S (next_addr s)) with
  | ((_, Some e), k) => Done (Some (ErrStore e)) (with_next_addr k s)
  | ((r, None), k) =>
      Done None (swapped t s r0 R0 r (Some n, None) k [EvFreeNodeLoc t (NL_mem n)])
  end.
Proof.
  intros Hacc (Hroot & E & Hrefs & Hc1 & Hc2) n.
  rewrite (SetItem_accepted_unfold t id i Hacc).
  unfold bind at 1. rewrite (rootAddRef_run s r0 R0 Hroot E).
  rewrite Hrefs. change (int64_wrap (1 + 1)) with 2.
  set (R2 := with_refs 2 R0).
  set (s1 := set_heap (<[r0 := R2]> (heap s)) s).
  assert (E1 : heap s1 !! r0 = Some R2) by apply lookup_insert_eq.
  unfold defer.
  unfold bind at 1. rewrite (load_Some r0 R2 s1 E1).
  unfold bind at 1. unfold yield at 1. unfold id at 1.
  unfold bind at 1. unfold mkNode at 1.
  fold (singleton (next_addr s1) i). change (next_addr s1) with (next_addr s).
  fold n.
  unfold bind at 1. unfold lift_alloc at 1. simpl next_addr. simpl mkNodeLoc.
  change (root R2) with (root R0).
  destruct (union (root R0) (NL_mem n) (S (next_addr s))) as [[r err] k].
  destruct err as [e|]; cbn [negb is_nil].
  - cbn [of_store ret].
    match goal with
    | |- context [rootDecRef t (Some r0) ?s2] =>
        rewrite (rootDecRef_held t s2 r0 R2); [ | exact E1 | vm_compute; reflexivity ]
    end.
    simpl. rewrite insert_insert_eq.
    change (with_refs (int64_wrap (2 - 1)) R2) with (with_refs 1 R0).
    rewrite <- Hrefs, with_refs_same, insert_id by exact E.
    destruct s; reflexivity.
  - set (s2 := with_next_addr k (with_next_addr (S (next_addr s)) s1)).
    assert (E2 : heap s2 !! r0 = Some R2) by exact E1.
    assert (Hdom : dom (heap s2) = dom (heap s)).
    { apply (dom_insert_present (heap s) r0 R0 R2 E). }
    unfold bind at 1. unfold mkRootNodeLoc at 1. rewrite Hdom.
    set (a := fresh (dom (heap s))).
    assert (Ha : heap s !! a = None) by apply fresh_not_in.
    assert (Hne : a <> r0) by congruence.
    unfold bind at 1.
    match goal with
    | |- context [update (Some a) ?f ?s3] =>
        rewrite (update_Some a _ f s3) by (simpl; apply lookup_insert_eq)
    end.
    cbn [set_reclaimLater Nat.eqb reclaimLater snd heap set_heap].
    rewrite insert_insert_eq.
    unfold bind at 1.
    match goal with
    | |- context [rootCAS t (Some r0) (Some a) ?s3] =>
        rewrite (rootCAS_unchained t r0 R2 (Some a) s3);
          [ | exact Hroot
            | simpl; rewrite lookup_insert_ne by exact Hne; exact E2
            | simpl; lia ]
    end.
    cbn [negb]. unfold bind at 1.
    match goal with
    | |- context [rootDecRef t (Some r0) ?s3] =>
        rewrite (rootDecRef_held t s3 r0 R2);
          [ | simpl; rewrite lookup_insert_ne by exact Hne; exact E2
            | vm_compute; reflexivity ]
    end.
    unfold bind at 1. unfold freeNodeLoc at 1, emit at 1.
    cbn [ret mkNodeLoc].
    change (with_refs (int64_wrap (refs R2 - 1)) R2) with (with_refs 1 R0).
    match goal with
    | |- context [rootDecRef t (Some r0) ?s3] =>
        rewrite (rootDecRef_last t s3 r0 (with_refs 1 R0));
          [ | simpl; apply lookup_insert_eq
            | vm_compute; discriminate
            | left; exact Hc1 ]
    end.
    f_equal. unfold reclaimed, swapped, with_log, set_heap, with_root. simpl.
    fold a. change (int64_wrap (1 - 1)) with 0.
    f_equal.
    + apply map_eq. intros x.
      destruct (decide (x = r0)) as [-> | Hx0].
      * rewrite !lookup_insert_eq. reflexivity.
      * rewrite !(lookup_insert_ne _ r0 x) by congruence.
        destruct (decide (x = a)) as [-> | Hxa].
        -- rewrite !lookup_insert_eq. reflexivity.
        -- rewrite !(lookup_insert_ne _ a x) by congruence.
           rewrite !(lookup_insert_ne _ r0 x) by congruence. reflexivity.
    + rewrite <- app_assoc. reflexivity.
Qed.

(** The slots [Delete] fills: the split roots that are not empty. *)
Lemma Delete_run key s r0 R0 :
  quiescent s r0 R0 ->
  Delete t id key s =
  let (i, err) := GetItem_loop key false (root R0) in
  if negb (is_nil err) || is_nil i then Done (false, err) s
  else
    match split (root R0) key (next_addr s) with
    | ((_, _, _, Some e), k) =>
        Done (false, Some (ErrStore e)) (with_next_addr k s)
    | ((l, m, r, None), k) =>
        if isEmpty m
        then Done (false, Some (ErrConcurrentDelete key)) (with_next_addr k s)
        else
          match join l r k with
          | ((_, Some e), k') =>
              Done (false, Some (ErrStore e))
                   (with_log (log s ++ [EvMarkReclaimable t (Node m);
                                        EvFreeNodeLoc t m])
                             (with_next_addr k' s))
          | ((j, None), k') =>
              Done (true, None)
                   (swapped t s r0 R0 j
                      (if isEmpty l then None else Node l,
                       if isEmpty r then None else Node r) k'
                      [EvMarkReclaimable t (Node m); EvFreeNodeLoc t m;
                       EvFreeNodeLoc t l; EvFreeNodeLoc t r])
          end
    end.
Proof.
  intros (Hroot & E & Hrefs & Hc1 & Hc2).
  unfold Delete.
  unfold bind at 1. rewrite (rootAddRef_run s r0 R0 Hroot E).
  rewrite Hrefs. change (int64_wrap (1 + 1)) with 2.
  set (R2 := with_refs 2 R0).
  set (s1 := set_heap (<[r0 := R2]> (heap s)) s).
  assert (E1 : heap s1 !! r0 = Some R2) by apply lookup_insert_eq.
  assert (Hheap : <[r0 := with_refs 1 R0]> (<[r0 := R2]> (heap s)) = heap s).
  { rewrite insert_insert_eq.
    rewrite <- Hrefs, with_refs_same, insert_id by exact E. reflexivity. }
  assert (Hback : forall k l,
            with_log l (set_heap (<[r0 := with_refs 1 R0]> (heap s1))
                                 (with_next_addr k s1))
            = with_log l (with_next_addr k s)).
  { intros k l. subst s1.
    unfold with_log, set_heap, with_next_addr.
    cbn [heap c_root next_addr log]. rewrite Hheap. reflexivity. }
  assert (Hback0 : set_heap (<[r0 := with_refs 1 R0]> (heap s1)) s1 = s).
  { subst s1. unfold set_heap. cbn [heap c_root next_addr log].
    rewrite Hheap. destruct s; reflexivity. }
  unfold defer.
  unfold bind at 1. rewrite (load_Some r0 R2 s1 E1).
  unfold bind at 1. unfold yield at 1. unfold id at 1.
  unfold bind at 1.
  rewrite (GetItem_run t key false s1 r0 R2 Hroot E1) by (simpl; lia).
  change (root R2) with (root R0).
  destruct (GetItem_loop key false (root R0)) as [i err].
  destruct (negb (is_nil err) || is_nil i).
  { cbn [ret].
    rewrite (rootDecRef_held t s1 r0 R2 E1) by (vm_compute; reflexivity).
    change (with_refs (int64_wrap (refs R2 - 1)) R2) with (with_refs 1 R0).
    f_equal. exact Hback0. }
  unfold bind at 1. unfold lift_alloc at 1. change (next_addr s1) with (next_addr s).
  destruct (split (root R0) key (next_addr s)) as [[[[l m] r] serr] k].
  destruct serr as [e|]; cbn [negb is_nil].
  { cbn [ret of_store].
    match goal with
    | |- context [rootDecRef t (Some r0) ?s2] =>
        rewrite (rootDecRef_held t s2 r0 R2); [ | exact E1 | vm_compute; reflexivity ]
    end.
    change (with_refs (int64_wrap (refs R2 - 1)) R2) with (with_refs 1 R0).
    f_equal. apply (Hback k (log s)). }
  destruct (isEmpty m) eqn:Hm.
  { cbn [ret].
    match goal with
    | |- context [rootDecRef t (Some r0) ?s2] =>
        rewrite (rootDecRef_held t s2 r0 R2); [ | exact E1 | vm_compute; reflexivity ]
    end.
    change (with_refs (int64_wrap (refs R2 - 1)) R2) with (with_refs 1 R0).
    f_equal. apply (Hback k (log s)). }
  unfold bind at 1. unfold markReclaimable at 1, emit at 1.
  unfold bind at 1. unfold freeNodeLoc at 1, emit at 1.
  unfold bind at 1. unfold lift_alloc at 1. cbn [next_addr with_next_addr].
  destruct (join l r k) as [[j jerr] k'].
  destruct jerr as [e|]; cbn [negb is_nil].
  { cbn [ret of_store].
    match goal with
    | |- context [rootDecRef t (Some r0) ?s2] =>
        rewrite (rootDecRef_held t s2 r0 R2); [ | exact E1 | vm_compute; reflexivity ]
    end.
    change (with_refs (int64_wrap (refs R2 - 1)) R2) with (with_refs 1 R0).
    f_equal.
    rewrite <- (Hback k' (log s ++ [EvMarkReclaimable t (Node m); EvFreeNodeLoc t m])).
    unfold with_log, with_next_addr, set_heap.
    cbn [heap c_root next_addr log]. rewrite <- app_assoc. reflexivity. }
  match goal with
  | |- context [bind (mkRootNodeLoc j) _ ?s3] => set (s2 := s3)
  end.
  assert (E2 : heap s2 !! r0 = Some R2) by exact E1.
  assert (Hdom : dom (heap s2) = dom (heap s)).
  { apply (dom_insert_present (heap s) r0 R0 R2 E). }
  unfold bind at 1. unfold mkRootNodeLoc at 1. rewrite Hdom.
  set (a := fresh (dom (heap s))).
  assert (Ha : heap s !! a = None) by apply fresh_not_in.
  assert (Hne : a <> r0) by congruence.
  set (slots := (if isEmpty l then None else Node l,
                 if isEmpty r then None else Node r)).
  match goal with
  | |- context [bind (if negb (isEmpty l) then _ else _) _ ?s3] =>
      set (s3' := s3)
  end.
  assert (Hslots : forall (k1 : M (bool * option error)),
    (bind (if negb (isEmpty l)
           then update (Some a)
                  (fun R' => with_reclaimLater
                     (set_reclaimLater 0 (Node l) (reclaimLater R')) R')
           else ret tt)
       (fun _ => bind (if negb (isEmpty r)
              then update (Some a)
                     (fun R' => with_reclaimLater
                        (set_reclaimLater 1 (Node r) (reclaimLater R')) R')
              else ret tt) (fun _ => k1))) s3'
    = k1 (set_heap (<[a := {| refs := 1; root := j; next := None;
                              chainedCollection := None;
                              chainedRootNodeLoc := None;
                              reclaimLater := slots |}]> (heap s2)) s2)).
  { intros k1. subst s3' slots. unfold bind.
    destruct (isEmpty l), (isEmpty r); cbn [negb ret];
      repeat match goal with
      | |- context [update (Some a) ?f ?s3] =>
          rewrite (update_Some a _ f s3) by (simpl; apply lookup_insert_eq)
      end;
      cbn [set_reclaimLater Nat.eqb reclaimLater fst snd heap set_heap];
      rewrite ?insert_insert_eq; reflexivity. }
  rewrite Hslots. clear Hslots.
  unfold bind at 1.
  match goal with
  | |- context [rootCAS t (Some r0) (Some a) ?s3] =>
      rewrite (rootCAS_unchained t r0 R2 (Some a) s3);
        [ | exact Hroot
          | simpl; rewrite lookup_insert_ne by exact Hne; exact E2
          | simpl; lia ]
  end.
  cbn [negb]. unfold bind at 1.
  match goal with
  | |- context [rootDecRef t (Some r0) ?s3] =>
      rewrite (rootDecRef_held t s3 r0 R2);
        [ | simpl; rewrite lookup_insert_ne by exact Hne; exact E2
          | vm_compute; reflexivity ]
  end.
  unfold bind at 1. unfold freeNodeLoc at 1, emit at 1.
  unfold bind at 1. unfold freeNodeLoc at 1, emit at 1.
  cbn [ret].
  change (with_refs (int64_wrap (refs R2 - 1)) R2) with (with_refs 1 R0).
  match goal with
  | |- context [rootDecRef t (Some r0) ?s3] =>
      rewrite (rootDecRef_last t s3 r0 (with_refs 1 R0));
        [ | simpl; apply lookup_insert_eq
          | vm_compute; discriminate
          | left; exact Hc1 ]
  end.
  f_equal. unfold reclaimed, swapped, with_log, set_heap, with_root. simpl.
  fold a. change (int64_wrap (1 - 1)) with 0.
  f_equal.
  - apply map_eq. intros x.
    destruct (decide (x = r0)) as [-> | Hx0].
    + rewrite !lookup_insert_eq. reflexivity.
    + rewrite !(lookup_insert_ne _ r0 x) by congruence.
      destruct (decide (x = a)) as [-> | Hxa].
      * rewrite !lookup_insert_eq. reflexivity.
      * rewrite !(lookup_insert_ne _ a x) by congruence.
        rewrite !(lookup_insert_ne _ r0 x) by congruence. reflexivity.
  - rewrite <- !app_assoc. reflexivity.
Qed.

End Mutations.

(** ** Delete *)


Lemma three_at_rest : quiescent three 3%nat three_root.
Proof. repeat split. Qed.

Section Delete_claim.

Context {St : Store}.
Variable t : cptr.
Variable others : State -> State.






End Delete_claim.


(** ** Write *)

Section Write_claim.

Context {St : Store}.
Variable t : cptr.

Lemma with_log_nil s : with_log (log s ++ []) s = s.
Proof. unfold with_log. rewrite app_nil_r. destruct s; reflexivity. Qed.

Lemma with_log_app s l1 l2 :
  with_log (log (with_log (log s ++ l1) s) ++ l2) (with_log (log s ++ l1) s)
  = with_log (log s ++ l1 ++ l2) s.
Proof. unfold with_log. simpl. rewrite app_assoc. reflexivity. Qed.

Lemma write_all_app l1 l2 s :
  write_all t (l1 ++ l2) s =
  (err <- write_all t l1 ;; if negb (is_nil err) then ret err else write_all t l2) s.
Proof.
  revert s. induction l1 as [|i l1 IH]; intros s; [reflexivity |].
  cbn [app write_all]. unfold bind.
  destruct (itemLoc_write t i s) as [err s1 | p s1]; [| reflexivity].
  destruct err as [e|]; cbn [negb is_nil]; [reflexivity |].
  rewrite IH. reflexivity.
Qed.

Lemma flushItems_write_all_both :
  (forall nd s, flushItems t (NL_mem nd) s
                = write_all t (unpersisted_items (NL_mem nd)) s) /\
  (forall n s, flushItems t n s = write_all t (unpersisted_items n) s).
Proof.
  apply node_nodeLoc_ind.
  - intros a i l IHl r IHr nn nb s.
    cbn [flushItems unpersisted_items left right item].
    rewrite write_all_app. unfold bind at 1 3. rewrite IHl.
    destruct (write_all t (unpersisted_items l) s) as [err s1 | q s1];
      [| reflexivity].
    destruct err as [e|]; cbn [negb is_nil]; [reflexivity |].
    cbn [write_all]. unfold bind.
    destruct (itemLoc_write t i s1) as [err s2 | q s2]; [| reflexivity].
    destruct err as [e|]; cbn [negb is_nil]; [reflexivity |].
    apply IHr.
  - reflexivity.
  - intros nd IH s. apply IH.
  - reflexivity.
  - reflexivity.
  - reflexivity.
Qed.

Lemma flushItems_write_all n s :
  flushItems t n s = write_all t (unpersisted_items n) s.
Proof. apply flushItems_write_all_both. Qed.

Lemma write_all_run l s :
  write_all t l s =
  Done (first_error l) (with_log (log s ++ map (EvItemWrite t) (attempted l)) s).
Proof.
  revert s. induction l as [|i l IH]; intros s.
  - simpl. rewrite with_log_nil. reflexivity.
  - cbn [write_all attempted first_error]. unfold bind, itemLoc_write, bind, emit, ret.
    destruct (item_write i) as [e|]; cbn [of_store negb is_nil].
    + reflexivity.
    + rewrite IH. unfold with_log. simpl. rewrite <- app_assoc. reflexivity.
Qed.

Lemma attempted_all l : first_error l = None -> attempted l = l.
Proof.
  induction l as [|i l IH]; [reflexivity |]. simpl.
  destruct (item_write i); [discriminate |]. intros Hl. f_equal. apply IH, Hl.
Qed.

(** A reader whose body only logs. *)
Lemma reader_run_log {A} (k : rootNodeLoc -> M A) (v : A) evs s r0 R0 :
  c_root s = Some r0 -> heap s !! r0 = Some R0 ->
  1 <= refs R0 < 2 ^ 62 ->
  (forall s', k (with_refs (refs R0 + 1) R0) s'
              = Done v (with_log (log s' ++ evs) s')) ->
  (rnl <- rootAddRef ;;
   defer (rootDecRef t rnl) (R <- load rnl ;; k R)) s
  = Done v (with_log (log s ++ evs) s).
Proof.
  intros Hr E Hrefs Hk. unfold bind at 1.
  rewrite (rootAddRef_run s r0 R0 Hr E).
  rewrite int64_wrap_id by (unfold int64_range; lia).
  set (R1 := with_refs (refs R0 + 1) R0).
  set (s1 := set_heap (<[r0 := R1]> (heap s)) s).
  assert (E1 : heap s1 !! r0 = Some R1) by apply lookup_insert_eq.
  unfold defer, bind. rewrite (load_Some r0 R1 s1 E1). rewrite Hk.
  rewrite (rootDecRef_held t _ r0 R1) by
    (try exact E1; subst R1; simpl; replace (refs R0 + 1 - 1) with (refs R0) by lia;
     rewrite int64_wrap_id by (unfold int64_range; lia); lia).
  subst s1 R1. simpl. rewrite insert_insert_eq.
  replace (refs R0 + 1 - 1) with (refs R0) by lia.
  rewrite int64_wrap_id by (unfold int64_range; lia).
  rewrite with_refs_twice, with_refs_same, insert_id by exact E.
  destruct s; reflexivity.
Qed.

(** C8.  [Write] flushes depth first and in key order: the items of the
    nodes of the root's tree that have no persisted location are
    written, left subtree, node, right subtree, subtrees with a persisted
    location being skipped; the store is asked to write the nodes only
    after every item was written; nothing else is written, and the
    published root and the [rootNodeLoc]s are as before. *)
Theorem Write_order (s : State) (r0 : rptr) (R0 : rootNodeLoc) :
  c_root s = Some r0 -> heap s !! r0 = Some R0 -> 1 <= refs R0 < 2 ^ 62 ->
  let items := unpersisted_items (root R0) in
  (forall s1, flushItems t (root R0) s1 = write_all t items s1) /\
  Write t s =
  Done (match first_error items with
        | Some e => Some e
        | None => of_store (flushNodes (root R0))
        end)
       (with_log (log s ++ map (EvItemWrite t) (attempted items)
                        ++ match first_error items with
                           | Some _ => []
                           | None => [EvFlushNodes (root R0)]
                           end) s) /\
  (first_error items = None -> attempted items = items).
Proof.
  intros Hr E Hrefs items. split; [| split].
  - intros s1. apply flushItems_write_all.
  - unfold Write.
    apply (reader_run_log _ _ _ s r0 R0 Hr E Hrefs). intros s'.
    change (root (with_refs (refs R0 + 1) R0)) with (root R0).
    unfold bind at 1. rewrite flushItems_write_all, write_all_run. fold items.
    destruct (first_error items) as [e|] eqn:Hfe; cbn [negb is_nil].
    + unfold ret. rewrite app_nil_r. reflexivity.
    + unfold bind, store_flushNodes, bind, emit, ret.
      destruct (flushNodes (root R0)) as [e|]; cbn [of_store negb is_nil];
        unfold with_log; simpl; rewrite <- app_assoc; reflexivity.
  - apply attempted_all.
Qed.

End Write_claim.

Lemma Write_order_witness :
  Write (St := mem_store) 0%nat mixed =
  Done None
       (with_log [EvItemWrite 0%nat (IL_mem item_a); EvItemWrite 0%nat (IL_mem item_b);
                  EvFlushNodes mixed_tree] mixed).
Proof.
  destruct (Write_order (St := mem_store) 0%nat mixed 0%nat (fresh_root mixed_tree 1)
              eq_refl eq_refl) as (_ & Hrun & _).
  - simpl. lia.
  - exact Hrun.
Defined.

(** ** GetItem on a tree *)

Lemma item_read_value i it :
  item_read i false = (Some it, None) ->
  exists it', item_read i true = (Some it', None) /\ Key it' = Key it.
Proof.
  destruct i as [|a|l a|l a|l]; simpl; intros E; try discriminate;
    injection E as <-; eexists; split; reflexivity.
Qed.

Lemma cell_key_read i k :
  cell_key i = Some k ->
  exists it, item_read i false = (Some it, None) /\ Key it = Some k.
Proof.
  unfold cell_key. destruct (item_read i false) as [[it|] [e|]]; try discriminate.
  intros E. eauto.
Qed.

Section Lookup.

Context {St : Store}.

(** One turn of the loop of [GetItem] at a node that can be read. *)
Lemma GetItem_loop_node key withValue n nd it k :
  read n = (Some nd, None) ->
  item_read (item nd) false = (Some it, None) -> Key it = Some k ->
  GetItem_loop key withValue n =
  if compare key k <? 0 then GetItem_loop key withValue (left nd)
  else if compare key k >? 0 then GetItem_loop key withValue (right nd)
  else if withValue then (fst (item_read (item nd) true), None)
  else (Some it, None).
Proof.
  intros Hread Hitem Hkey.
  destruct (item_read_value _ _ Hitem) as (it' & Hval & _).
  destruct n as [|m|l m|l m|l]; simpl in Hread; try discriminate;
    injection Hread as ->; cbn [GetItem_loop]; rewrite Hitem, Hkey;
    destruct (compare key k <? 0); try reflexivity;
    destruct (compare key k >? 0); try reflexivity;
    destruct withValue; try reflexivity; rewrite Hval; reflexivity.
Qed.

Lemma GetItem_loop_sound_both key withValue :
  (forall nd it e,
      GetItem_loop key withValue (NL_mem nd) = (Some it, e) ->
      e = None /\ exists k, Key it = Some k /\ compare key k = 0) /\
  (forall n it e,
      GetItem_loop key withValue n = (Some it, e) ->
      e = None /\ exists k, Key it = Some k /\ compare key k = 0).
Proof.
  apply node_nodeLoc_ind.
  - intros a i l IHl r IHr nn nb it e.
    cbn [GetItem_loop item left right].
    destruct (item_read i false) as [[it0|] [e0|]] eqn:Hitem; try discriminate.
    destruct (Key it0) as [k|] eqn:Hkey; [| discriminate].
    destruct (compare key k <? 0) eqn:Hlt; [apply IHl |].
    destruct (compare key k >? 0) eqn:Hgt; [apply IHr |].
    assert (Hzero : compare key k = 0) by lia.
    destruct (item_read_value _ _ Hitem) as (it' & Hval & Hk').
    destruct withValue.
    + rewrite Hval. intros E. injection E as <- <-.
      split; [reflexivity |]. exists k. split; [congruence | exact Hzero].
    + intros E. injection E as <- <-.
      split; [reflexivity |]. exists k. split; [exact Hkey | exact Hzero].
  - intros it e E. discriminate.
  - intros nd IH. exact IH.
  - intros l nd IH. exact IH.
  - intros l nd IH. exact IH.
  - intros l it e E. discriminate.
Qed.

Lemma all_keys_read P n nd :
  all_keys P n -> read n = (Some nd, None) -> all_keys_node P nd.
Proof.
  destruct n as [|m|l m|l m|l]; simpl; intros HA E; try discriminate;
    injection E as <-; exact HA.
Qed.

Lemma ordered_read n nd :
  ordered n -> read n = (Some nd, None) -> ordered_node nd.
Proof.
  destruct n as [|m|l m|l m|l]; simpl; intros HA E; try discriminate;
    injection E as <-; exact HA.
Qed.

Lemma all_keys_holds P key i n : holds key i n -> all_keys P n -> P key.
Proof.
  induction 1 as [n nd Hread Hitem Hkey | n nd Hread Hin IH | n nd Hread Hin IH];
    intros HA; pose proof (all_keys_read P n nd HA Hread) as HN;
    destruct nd as [a j l r nn nb]; simpl in *;
    destruct HN as ((k & Hk & HP) & HL & HR).
  - subst j. congruence.
  - apply IH, HL.
  - apply IH, HR.
Qed.

Lemma GetItem_loop_absent_both key withValue :
  (forall nd, all_keys_node (fun k => compare key k <> 0) nd ->
              GetItem_loop key withValue (NL_mem nd) = (None, None)) /\
  (forall n, all_keys (fun k => compare key k <> 0) n ->
             GetItem_loop key withValue n = (None, None)).
Proof.
  apply node_nodeLoc_ind.
  - intros a i l IHl r IHr nn nb ((k & Hk & Hne) & HL & HR).
    destruct (cell_key_read i k Hk) as (it & Hitem & Hkey).
    rewrite (GetItem_loop_node key withValue (NL_mem (mk_node a i l r nn nb))
               (mk_node a i l r nn nb) it k eq_refl Hitem Hkey).
    cbn [left right].
    destruct (compare key k <? 0) eqn:Hlt; [apply IHl, HL |].
    destruct (compare key k >? 0) eqn:Hgt; [apply IHr, HR |]. lia.
  - reflexivity.
  - intros nd IH. exact IH.
  - intros l nd IH. exact IH.
  - intros l nd IH. exact IH.
  - intros l HA. destruct HA.
Qed.

Lemma GetItem_loop_finds key withValue i n :
  holds key i n -> ordered n -> compare key key = 0 ->
  exists it, GetItem_loop key withValue n = (Some it, None) /\
             item_read i withValue = (Some it, None) /\ Key it = Some key.
Proof.
  intros Hin. induction Hin as [n nd Hread Hitem Hkey | n nd Hread Hin IH | n nd Hread Hin IH];
    intros Hord Hrefl; pose proof (ordered_read n nd Hord Hread) as HN;
    destruct nd as [a j l r nn nb]; simpl in *;
    destruct HN as ((k & Hk & HL & HR) & HOL & HOR);
    destruct (cell_key_read j k Hk) as (it & Hread_it & Hkey_it);
    rewrite (GetItem_loop_node key withValue n _ it k Hread Hread_it Hkey_it);
    cbn [left right item].
  - subst j. assert (k = key) by congruence. subst k. rewrite Hrefl.
    simpl. destruct (item_read_value _ _ Hread_it) as (it' & Hval & Hk').
    destruct withValue.
    + exists it'. rewrite Hval. repeat split; congruence.
    + exists it. repeat split; assumption.
  - pose proof (all_keys_holds _ key i l Hin HL) as Hlt. simpl in Hlt.
    destruct (compare key k <? 0) eqn:E; [| lia]. apply IH; assumption.
  - pose proof (all_keys_holds _ key i r Hin HR) as Hgt. simpl in Hgt.
    destruct (compare key k <? 0) eqn:E; [lia |].
    destruct (compare key k >? 0) eqn:E'; [| lia]. apply IH; assumption.
Qed.

End Lookup.

Section Lookup_api.

Context {St : Store}.
Variable t : cptr.

(** Whatever the state, an item that [GetItem] returns comes without an
    error and has a key that compares equal to the key asked for. *)
Theorem GetItem_sound (key : bytes) (withValue : bool) (s s' : State)
    (it : Item) (e : option error) :
  GetItem t key withValue s = Done (Some it, e) s' ->
  e = None /\ exists k, Key it = Some k /\ compare key k = 0.
Proof.
  intros Hrun.
  assert (HP : post (GetItem t key withValue)
                 (fun res _ => forall it0, fst res = Some it0 ->
                    snd res = None /\
                    exists k, Key it0 = Some k /\ compare key k = 0) s).
  { unfold GetItem. apply post_bind_any. intros rnl s1.
    apply post_defer. apply post_load_bind. intros R.
    apply post_ret. apply post_intro. intros _ _ _ it0 Hit.
    destruct (GetItem_loop key withValue (root R)) as [i0 e0] eqn:Hloop.
    simpl in Hit. subst i0.
    apply (proj2 (GetItem_loop_sound_both key withValue) _ _ _ Hloop). }
  apply (post_elim _ _ _ _ _ HP Hrun it eq_refl).
Qed.

(** On a search tree, [GetItem] and [Get] return the item stored under
    the key, and the state is the one before the call. *)
Theorem GetItem_finds (key : bytes) (i : itemLoc) (s : State)
    (r0 : rptr) (R0 : rootNodeLoc) :
  c_root s = Some r0 -> heap s !! r0 = Some R0 -> 1 <= refs R0 < 2 ^ 62 ->
  ordered (root R0) -> holds key i (root R0) -> compare key key = 0 ->
  (forall withValue,
      exists it, GetItem t key withValue s = Done (Some it, None) s /\
                 item_read i withValue = (Some it, None) /\
                 Key it = Some key) /\
  (exists it, Get t key s = Done (Val it, None) s /\
              item_read i true = (Some it, None)).
Proof.
  intros Hr E Hrefs Hord Hin Hrefl. split.
  - intros withValue.
    destruct (GetItem_loop_finds key withValue i (root R0) Hin Hord Hrefl)
      as (it & Hloop & Hread & Hkey).
    exists it. rewrite (GetItem_run t key withValue s r0 R0 Hr E Hrefs), Hloop.
    repeat split; assumption.
  - destruct (GetItem_loop_finds key true i (root R0) Hin Hord Hrefl)
      as (it & Hloop & Hread & Hkey).
    exists it. rewrite (Get_run t key s r0 R0 Hr E Hrefs), Hloop.
    split; [reflexivity | exact Hread].
Qed.

(** When no key of the tree compares equal to the key asked for, as in
    the empty collection, [GetItem] and [Get] return nil without an
    error, and the state is the one before the call. *)
Theorem GetItem_absent (key : bytes) (s : State) (r0 : rptr) (R0 : rootNodeLoc) :
  c_root s = Some r0 -> heap s !! r0 = Some R0 -> 1 <= refs R0 < 2 ^ 62 ->
  all_keys (fun k => compare key k <> 0) (root R0) ->
  (forall withValue, GetItem t key withValue s = Done (None, None) s) /\
  Get t key s = Done (None, None) s.
Proof.
  intros Hr E Hrefs HA. split.
  - intros withValue.
    rewrite (GetItem_run t key withValue s r0 R0 Hr E Hrefs).
    rewrite (proj2 (GetItem_loop_absent_both key withValue) _ HA). reflexivity.
  - rewrite (Get_run t key s r0 R0 Hr E Hrefs).
    rewrite (proj2 (GetItem_loop_absent_both key true) _ HA). reflexivity.
Qed.

(** [GetTotals] reads the aggregate fields of the root node: zeros for
    the empty tree, zeros with the error when the root cannot be read;
    the reference it takes is given back. *)
Theorem GetTotals_reads_root (s : State) (r0 : rptr) (R0 : rootNodeLoc) :
  c_root s = Some r0 -> heap s !! r0 = Some R0 -> 1 <= refs R0 < 2 ^ 62 ->
  (root R0 = NL_empty -> GetTotals t s = Done (0, 0, None) s) /\
  (forall l, root R0 = NL_ioerr l ->
             GetTotals t s = Done (0, 0, Some (ErrStore (IOError l))) s) /\
  (forall nd, read (root R0) = (Some nd, None) ->
              GetTotals t s = Done (numNodes nd, numBytes nd, None) s).
Proof.
  intros Hr E Hrefs.
  pose proof (GetTotals_run t s r0 R0 Hr E Hrefs) as Hrun.
  split; [| split].
  - intros H0. rewrite Hrun, H0. reflexivity.
  - intros l H0. rewrite Hrun, H0. reflexivity.
  - intros nd H0. rewrite Hrun, H0. reflexivity.
Qed.

End Lookup_api.

Lemma three_ordered : ordered (St := mem_store) (root three_root).
Proof.
  simpl. split.
  - exists key_a. split; [reflexivity |]. split; [exact I |].
    simpl. split; [| split; [exact I |]].
    + exists key_b. split; [reflexivity | vm_compute; reflexivity].
    + split; [| split; exact I].
      exists key_c. split; [reflexivity | vm_compute; reflexivity].
  - split; [exact I |]. split; [| split; [exact I |]].
    + exists key_b. split; [reflexivity |]. split; [exact I |].
      simpl. split; [| split; exact I].
      exists key_c. split; [reflexivity | vm_compute; reflexivity].
    + split; [| split; exact I].
      exists key_c. split; [reflexivity |]. split; exact I.
Qed.

Lemma three_holds_b : holds key_b (IL_mem item_b) (root three_root).
Proof.
  eapply holds_right; [reflexivity |].
  eapply holds_here; reflexivity.
Qed.

Lemma GetItem_finds_witness :
  exists it, Get (St := mem_store) 0%nat key_b three = Done (Val it, None) three /\
             item_read (IL_mem item_b) true = (Some it, None).
Proof.
  apply (GetItem_finds (St := mem_store) 0%nat key_b (IL_mem item_b) three
           3%nat three_root).
  - reflexivity.
  - reflexivity.
  - simpl. lia.
  - exact three_ordered.
  - exact three_holds_b.
  - vm_compute. reflexivity.
Defined.

Lemma GetItem_absent_witness :
  Get (St := mem_store) 0%nat key_a init = Done (None, None) init.
Proof.
  apply (GetItem_absent (St := mem_store) 0%nat key_a init 0%nat empty_root).
  - reflexivity.
  - reflexivity.
  - simpl. lia.
  - exact I.
Defined.

Lemma GetTotals_reads_root_witness :
  GetTotals (St := mem_store) 0%nat init = Done (0, 0, None) init /\
  GetTotals (St := mem_store) 0%nat three = Done (3, 6, None) three.
Proof.
  destruct (GetTotals_reads_root (St := mem_store) 0%nat init 0%nat empty_root
              eq_refl eq_refl) as (Hempty & _ & _); [simpl; lia |].
  destruct (GetTotals_reads_root (St := mem_store) 0%nat three 3%nat three_root
              eq_refl eq_refl) as (_ & _ & Hnode); [simpl; lia |].
  split.
  - apply Hempty. reflexivity.
  - apply (Hnode (mk_node 8 (IL_mem item_a) NL_empty
                    (NL_mem (mk_node 7 (IL_mem item_b) NL_empty
                               (NL_mem (mk_node 6 (IL_mem item_c)
                                          NL_empty NL_empty 1 2)) 2 4)) 3 6)).
    reflexivity.
Defined.

(** ** closeCollection and the operations after it *)

Section Close.

Context {St : Store}.
Variable t : cptr.
Variable others : State -> State.

Lemma with_root_same s : with_root (c_root s) s = s.
Proof. destruct s; reflexivity. Qed.

Lemma rootAddRef_nil s :
  c_root s = None -> rootAddRef s = Panicked NilDereference s.
Proof.
  intros Hr. unfold rootAddRef, bind, get_root, update, bind, load.
  rewrite Hr. reflexivity.
Qed.

(** [closeCollection] clears the root and releases the reference of the
    collection: a closed collection stays as it is; a root that readers
    still hold is only released; the last reference of an unchained root
    reclaims it. *)
Theorem closeCollection_releases (s : State) :
  (c_root s = None -> closeCollection t s = Done tt s) /\
  (forall r0 R0,
      c_root s = Some r0 -> heap s !! r0 = Some R0 ->
      let R1 := with_refs (int64_wrap (refs R0 - 1)) R0 in
      let s1 := set_heap (<[r0 := R1]> (heap s)) (with_root None s) in
      (refs R1 > 0 -> closeCollection t s = Done tt s1) /\
      (refs R1 <= 0 ->
       chainedCollection R0 = None \/ chainedRootNodeLoc R0 = None ->
       closeCollection t s = Done tt (reclaimed t r0 R1 s1))).
Proof.
  split.
  - intros Hr. unfold closeCollection, bind, get_root, set_root. rewrite Hr.
    simpl. rewrite <- Hr. fold (with_root (c_root s) s).
    rewrite with_root_same. reflexivity.
  - intros r0 R0 Hr E R1 s1.
    assert (Hshape : closeCollection t s = rootDecRef t (Some r0) (with_root None s)).
    { unfold closeCollection, bind, get_root, set_root. rewrite Hr. reflexivity. }
    rewrite Hshape. split.
    + intros Hpos. apply (rootDecRef_held t (with_root None s) r0 R0 E Hpos).
    + intros Hle Hend. apply (rootDecRef_last t (with_root None s) r0 R0 E Hle Hend).
Qed.

(** On a collection without a root, as after [closeCollection], every
    operation that takes a reference panics on the nil root and leaves
    the state as it is; [SetItem] still rejects a bad item first. *)
Theorem use_after_close (s : State) :
  c_root s = None ->
  (forall key withValue, GetItem t key withValue s = Panicked NilDereference s) /\
  (forall key, Get t key s = Panicked NilDereference s) /\
  GetTotals t s = Panicked NilDereference s /\
  Write t s = Panicked NilDereference s /\
  (forall key, Delete t others key s = Panicked NilDereference s) /\
  (forall i, ~ rejected i -> SetItem t others i s = Panicked NilDereference s) /\
  (forall i, rejected i -> exists e, SetItem t others i s = Done (Some e) s).
Proof.
  intros Hr. pose proof (rootAddRef_nil s Hr) as Hadd.
  assert (HG : forall key withValue,
             GetItem t key withValue s = Panicked NilDereference s).
  { intros key withValue. unfold GetItem, bind. rewrite Hadd. reflexivity. }
  repeat split.
  - exact HG.
  - intros key. unfold Get, bind. rewrite HG. reflexivity.
  - unfold GetTotals, bind. rewrite Hadd. reflexivity.
  - unfold Write, bind. rewrite Hadd. reflexivity.
  - intros key. unfold Delete, bind. rewrite Hadd. reflexivity.
  - intros i Hacc. rewrite (SetItem_accepted_unfold t others i Hacc).
    unfold bind. rewrite Hadd. reflexivity.
  - intros i Hrej. destruct (SetItem_rejects t others i s Hrej) as (e & Hrun & _).
    exists e. exact Hrun.
Qed.

End Close.

Lemma closeCollection_releases_witness :
  exists s', closeCollection (St := mem_store) 0%nat three = Done tt s' /\
             c_root s' = None.
Proof.
  destruct (closeCollection_releases (St := mem_store) 0%nat three) as (_ & Hopen).
  destruct (Hopen 3%nat three_root eq_refl eq_refl) as (_ & Hlast).
  eexists. split.
  - apply Hlast; [vm_compute; discriminate | left; reflexivity].
  - reflexivity.
Defined.

Lemma use_after_close_witness :
  Get (St := mem_store) 0%nat key_a unpublished
  = Panicked NilDereference unpublished.
Proof.
  apply (use_after_close (St := mem_store) 0%nat id unpublished). reflexivity.
Defined.

(** ** Mutations of a collection at rest *)

Section AtRest.

Context {St : Store}.
Variable t : cptr.

Lemma quiescent_next_addr s r0 R0 k :
  quiescent s r0 R0 -> quiescent (with_next_addr k s) r0 R0.
Proof. intros Hq. exact Hq. Qed.

Lemma quiescent_with_log s r0 R0 l :
  quiescent s r0 R0 -> quiescent (with_log l s) r0 R0.
Proof. intros Hq. exact Hq. Qed.

Lemma swapped_at_rest s r0 R0 r slots k evs :
  heap s !! r0 = Some R0 ->
  let a := fresh (dom (heap s)) in
  let Rnew := {| refs := 1; root := r; next := None; chainedCollection := None;
                 chainedRootNodeLoc := None; reclaimLater := slots |} in
  heap s !! a = None /\
  quiescent (swapped t s r0 R0 r slots k evs) a Rnew /\
  (exists R0', heap (swapped t s r0 R0 r slots k evs) !! r0 = Some R0' /\
               refs R0' = 0 /\ root R0' = root R0).
Proof.
  intros E a Rnew.
  assert (Ha : heap s !! a = None) by apply fresh_not_in.
  assert (Hne : r0 <> a) by congruence.
  split; [exact Ha |]. split.
  - unfold quiescent, swapped. simpl. fold a.
    rewrite lookup_insert_ne by exact Hne. rewrite lookup_insert_eq.
    repeat split.
  - unfold swapped. simpl. rewrite lookup_insert_eq.
    eexists. split; [reflexivity |]. split; reflexivity.
Qed.

(** From a collection at rest [SetItem] returns, and the collection is
    at rest again.  An item that is rejected leaves the state as it is;
    when the union fails the heap and the root are the ones before the
    call, the reference taken being given back; otherwise a fresh root
    with one reference is published over the result of the union, with
    the node made for the item in slot 0, and the displaced root is left
    without references and reclaimed. *)
Theorem SetItem_at_rest (i : Item) (s : State) (r0 : rptr) (R0 : rootNodeLoc) :
  quiescent s r0 R0 ->
  exists e s' r' R',
    SetItem t id i s = Done e s' /\ quiescent s' r' R' /\
    (rejected i -> s' = s) /\
    (e <> None -> c_root s' = c_root s /\ heap s' = heap s /\ log s' = log s) /\
    (e = None ->
     ~ rejected i /\
     heap s !! r' = None /\
     (exists k, union (root R0) (NL_mem (singleton (next_addr s) i))
                      (S (next_addr s)) = ((root R', None), k) /\
                next_addr s' = k) /\
     reclaimLater R' = (Some (singleton (next_addr s) i), None) /\
     (exists R0', heap s' !! r0 = Some R0' /\ refs R0' = 0) /\
     log s' = log s ++ [EvFreeNodeLoc t (NL_mem (singleton (next_addr s) i))]
                    ++ reclaim_events t r0 (with_refs 0 R0)).
Proof.
  intros Hq.
  destruct (checks i) eqn:E1.
  { assert (Hrej : rejected i) by (apply checks_rejected; left; exact E1).
    destruct (SetItem_rejects t id i s Hrej) as (e & Hrun & _).
    exists (Some e), s, r0, R0. split; [exact Hrun |]. split; [exact Hq |].
    split; [reflexivity |]. split; [repeat split | discriminate]. }
  destruct (Priority i <? 0) eqn:E2.
  { assert (Hrej : rejected i) by (apply checks_rejected; right; exact E2).
    destruct (SetItem_rejects t id i s Hrej) as (e & Hrun & _).
    exists (Some e), s, r0, R0. split; [exact Hrun |]. split; [exact Hq |].
    split; [reflexivity |]. split; [repeat split | discriminate]. }
  assert (Hacc : ~ rejected i).
  { rewrite checks_rejected. intros [H1 | H1]; congruence. }
  pose proof (SetItem_run t i s r0 R0 Hacc Hq) as Hrun. cbv zeta in Hrun.
  destruct (union (root R0) (NL_mem (singleton (next_addr s) i)) (S (next_addr s)))
    as [[r err] k] eqn:Hunion.
  destruct err as [e|].
  - exists (Some (ErrStore e)), (with_next_addr k s), r0, R0.
    split; [exact Hrun |]. split; [exact Hq |].
    split; [intros Hrej; contradiction |].
    split; [repeat split | discriminate].
  - destruct Hq as (Hroot & E & Hrefs & Hc1 & Hc2).
    destruct (swapped_at_rest s r0 R0 r
                (Some (singleton (next_addr s) i), None) k
                [EvFreeNodeLoc t (NL_mem (singleton (next_addr s) i))] E)
      as (Ha & Hq' & (R0' & E0' & Hz & _)).
    eexists None, _, _, _. split; [exact Hrun |]. split; [exact Hq' |].
    split; [intros Hrej; contradiction |].
    split; [intros Hne; congruence |].
    intros _. split; [exact Hacc |]. split; [exact Ha |].
    split; [exists k; split; reflexivity |].
    split; [reflexivity |].
    split; [exists R0'; split; assumption |]. reflexivity.
Qed.

(** From a collection at rest [Delete] returns, and the collection is at
    rest again; whenever it reports an error or deletes nothing, the
    heap and the root are the ones before the call. *)
Theorem Delete_at_rest (key : bytes) (s : State) (r0 : rptr) (R0 : rootNodeLoc) :
  quiescent s r0 R0 ->
  exists b e s' r' R',
    Delete t id key s = Done (b, e) s' /\ quiescent s' r' R' /\
    (b = true -> e = None /\ heap s !! r' = None /\
                 exists R0', heap s' !! r0 = Some R0' /\ refs R0' = 0) /\
    (b = false -> c_root s' = c_root s /\ heap s' = heap s).
Proof.
  intros Hq. pose proof (Delete_run t key s r0 R0 Hq) as Hrun.
  destruct (GetItem_loop key false (root R0)) as [i err].
  destruct (negb (is_nil err) || is_nil i).
  { exists false, err, s, r0, R0. split; [exact Hrun |]. split; [exact Hq |].
    split; [discriminate | repeat split]. }
  destruct (split (root R0) key (next_addr s)) as [[[[l m] r] serr] k].
  destruct serr as [e|].
  { eexists false, _, _, r0, R0. split; [exact Hrun |]. split; [exact Hq |].
    split; [discriminate | repeat split]. }
  destruct (isEmpty m).
  { eexists false, _, _, r0, R0. split; [exact Hrun |]. split; [exact Hq |].
    split; [discriminate | repeat split]. }
  destruct (join l r k) as [[j jerr] k'].
  destruct jerr as [e|].
  { eexists false, _, _, r0, R0. split; [exact Hrun |]. split; [exact Hq |].
    split; [discriminate | repeat split]. }
  destruct Hq as (Hroot & E & Hrefs & Hc1 & Hc2).
  match type of Hrun with
  | _ = Done _ (swapped _ _ _ _ _ ?slots _ ?evs) =>
      destruct (swapped_at_rest s r0 R0 j slots k' evs E)
        as (Ha & Hq' & (R0' & E0' & Hz & _))
  end.
  eexists true, None, _, _, _. split; [exact Hrun |]. split; [exact Hq' |].
  split; [| discriminate].
  intros _. split; [reflexivity |]. split; [exact Ha |].
  exists R0'. split; assumption.
Qed.

End AtRest.

Lemma SetItem_at_rest_witness :
  exists e s' r' R',
    SetItem (St := mem_store) 0%nat id item_a init = Done e s' /\
    quiescent s' r' R'.
Proof.
  destruct (SetItem_at_rest (St := mem_store) 0%nat item_a init 0%nat empty_root)
    as (e & s' & r' & R' & Hrun & Hq & _).
  - repeat split.
  - exists e, s', r', R'. split; assumption.
Defined.

Lemma Delete_at_rest_witness :
  exists b e s' r' R',
    Delete (St := mem_store) 0%nat id key_b three = Done (b, e) s' /\
    quiescent s' r' R'.
Proof.
  destruct (Delete_at_rest (St := mem_store) 0%nat key_b three 3%nat three_root)
    as (b & e & s' & r' & R' & Hrun & Hq & _).
  - repeat split.
  - exists b, e, s', r', R'. split; assumption.
Defined.

(** ** A reader across SetItem *)

Section Reader.

Context {St : Store}.
Variable t : cptr.

Lemma size_pos (h : gmap rptr rootNodeLoc) r R :
  h !! r = Some R -> exists f, size h = S f.
Proof.
  intros E. destruct (size h) as [|f] eqn:Hs; [| eauto].
  apply map_size_empty_iff in Hs. subst h. rewrite lookup_empty in E. discriminate.
Qed.

Lemma SetItem_run_reader i s r0 R0 r k :
  ~ rejected i ->
  c_root s = Some r0 -> heap s !! r0 = Some R0 -> refs R0 = 2 ->
  chainedCollection R0 = None -> chainedRootNodeLoc R0 = None ->
  union (root R0) (NL_mem (singleton (next_addr s) i)) (S (next_addr s))
  = ((r, None), k) ->
  SetItem t id i s =
  Done None (handed_over t s r0 R0 r (singleton (next_addr s) i) k).
Proof.
  intros Hacc Hroot E Hrefs Hc1 Hc2 Hunion.
  set (n := singleton (next_addr s) i) in *.
  rewrite (SetItem_accepted_unfold t id i Hacc).
  unfold bind at 1. rewrite (rootAddRef_run s r0 R0 Hroot E).
  rewrite Hrefs. change (int64_wrap (2 + 1)) with 3.
  set (R3 := with_refs 3 R0).
  set (s1 := set_heap (<[r0 := R3]> (heap s)) s).
  assert (E1 : heap s1 !! r0 = Some R3) by apply lookup_insert_eq.
  unfold defer.
  unfold bind at 1. rewrite (load_Some r0 R3 s1 E1).
  unfold bind at 1. unfold yield at 1. unfold id at 1.
  unfold bind at 1. unfold mkNode at 1.
  fold (singleton (next_addr s1) i). change (next_addr s1) with (next_addr s).
  fold n.
  unfold bind at 1. unfold lift_alloc at 1. cbn [next_addr with_next_addr mkNodeLoc].
  change (root R3) with (root R0). rewrite Hunion. cbn [negb is_nil].
  set (s2 := with_next_addr k (with_next_addr (S (next_addr s)) s1)).
  assert (E2 : heap s2 !! r0 = Some R3) by exact E1.
  assert (Hdom : dom (heap s2) = dom (heap s)).
  { apply (dom_insert_present (heap s) r0 R0 R3 E). }
  unfold bind at 1. unfold mkRootNodeLoc at 1. rewrite Hdom.
  set (a := fresh (dom (heap s))).
  assert (Ha : heap s !! a = None) by apply fresh_not_in.
  assert (Hne : a <> r0) by congruence.
  unfold bind at 1.
  match goal with
  | |- context [update (Some a) ?f ?s3] =>
      rewrite (update_Some a _ f s3) by (simpl; apply lookup_insert_eq)
  end.
  cbn [set_reclaimLater Nat.eqb reclaimLater snd heap set_heap].
  rewrite insert_insert_eq.
  set (Rnew := {| refs := 1; root := r; next := None; chainedCollection := None;
                  chainedRootNodeLoc := None; reclaimLater := (Some n, None) |}).
  unfold bind at 1.
  match goal with
  | |- context [rootCAS t (Some r0) (Some a) ?s3] =>
      rewrite (rootCAS_chains t r0 R3 a Rnew s3);
        [ | exact Hroot
          | simpl; rewrite lookup_insert_ne by exact Hne; exact E2
          | simpl; lia
          | exact Hc1
          | exact Hc2
          | simpl; apply lookup_insert_eq ]
  end.
  cbn [negb]. unfold chained.
  destruct (decide (r0 = a)) as [Heq | _]; [congruence |].
  change (int64_wrap (refs Rnew + 1)) with 2.
  set (P1 := with_chainedRootNodeLoc (Some a) (with_chainedCollection (Some t) R3)).
  unfold bind at 1.
  match goal with
  | |- context [rootDecRef t (Some r0) ?s3] =>
      rewrite (rootDecRef_held t s3 r0 P1);
        [ | simpl; rewrite lookup_insert_ne by congruence; apply lookup_insert_eq
          | vm_compute; reflexivity ]
  end.
  unfold bind at 1. unfold freeNodeLoc at 1, emit at 1.
  cbn [ret].
  change (with_refs (int64_wrap (refs P1 - 1)) P1) with (with_refs 2 P1).
  match goal with
  | |- context [rootDecRef t (Some r0) ?s3] =>
      rewrite (rootDecRef_held t s3 r0 (with_refs 2 P1));
        [ | simpl; apply lookup_insert_eq
          | vm_compute; reflexivity ]
  end.
  f_equal. unfold handed_over, set_heap, with_root. simpl. fold a.
  change (int64_wrap (2 - 1)) with 1.
  f_equal.
  apply map_eq. intros x.
  destruct (decide (x = r0)) as [-> | Hx0].
  - rewrite !lookup_insert_eq. reflexivity.
  - rewrite !(lookup_insert_ne _ r0 x) by congruence.
    destruct (decide (x = a)) as [-> | Hxa].
    + rewrite !lookup_insert_eq. reflexivity.
    + rewrite !(lookup_insert_ne _ a x) by congruence.
      rewrite !(lookup_insert_ne _ r0 x) by congruence.
      rewrite !(lookup_insert_ne _ a x) by congruence.
      rewrite !(lookup_insert_ne _ r0 x) by congruence. reflexivity.
Qed.

End Reader.

Section Reader_claim.

Context {St : Store}.
Variable t : cptr.

(** A reader that holds the root across a [SetItem]: the call publishes
    the new root and chains the displaced one to it instead of
    reclaiming it, so the reader's tree stays untouched; when the reader
    gives its reference back, the displaced root is reclaimed, the chain
    gives up its reference on the new root, and the collection is at
    rest on the new root. *)
Theorem SetItem_with_reader (i : Item) (s : State) (r0 : rptr) (R0 : rootNodeLoc)
    (r : nodeLoc) (k : nat) :
  ~ rejected i ->
  c_root s = Some r0 -> heap s !! r0 = Some R0 -> refs R0 = 2 ->
  chainedCollection R0 = None -> chainedRootNodeLoc R0 = None ->
  union (root R0) (NL_mem (singleton (next_addr s) i)) (S (next_addr s))
  = ((r, None), k) ->
  exists s1 a Ra P,
    SetItem t id i s = Done None s1 /\
    heap s !! a = None /\ c_root s1 = Some a /\
    heap s1 !! a = Some Ra /\ root Ra = r /\ refs Ra = 2 /\
    heap s1 !! r0 = Some P /\ root P = root R0 /\ refs P = 1 /\
    chainedCollection P = Some t /\ chainedRootNodeLoc P = Some a /\
    log s1 = log s ++ [EvFreeNodeLoc t (NL_mem (singleton (next_addr s) i))] /\
    exists s2,
      rootDecRef t (Some r0) s1 = Done tt s2 /\
      quiescent s2 a (with_refs 1 Ra) /\
      (exists P', heap s2 !! r0 = Some P' /\ refs P' = 0) /\
      log s2 = log s1 ++ reclaim_events t r0 (with_refs 0 P).
Proof.
  intros Hacc Hroot E Hrefs Hc1 Hc2 Hunion.
  pose proof (SetItem_run_reader t i s r0 R0 r k Hacc Hroot E Hrefs Hc1 Hc2 Hunion)
    as Hrun.
  set (n := singleton (next_addr s) i) in *.
  set (a := fresh (dom (heap s))).
  assert (Ha : heap s !! a = None) by apply fresh_not_in.
  assert (Hne : r0 <> a) by congruence.
  set (Ra := {| refs := 2; root := r; next := None; chainedCollection := None;
                chainedRootNodeLoc := None; reclaimLater := (Some n, None) |}).
  set (P := with_chainedRootNodeLoc (Some a)
              (with_chainedCollection (Some t) (with_refs 1 R0))).
  set (s1 := handed_over t s r0 R0 r n k) in *.
  assert (E1a : heap s1 !! a = Some Ra).
  { subst s1. unfold handed_over. simpl. fold a.
    rewrite lookup_insert_ne by exact Hne. apply lookup_insert_eq. }
  assert (E1p : heap s1 !! r0 = Some P).
  { subst s1. unfold handed_over. simpl. apply lookup_insert_eq. }
  exists s1, a, Ra, P.
  split; [exact Hrun |]. split; [exact Ha |]. split; [reflexivity |].
  split; [exact E1a |]. split; [reflexivity |]. split; [reflexivity |].
  split; [exact E1p |]. split; [reflexivity |]. split; [reflexivity |].
  split; [reflexivity |]. split; [reflexivity |]. split; [reflexivity |].
  destruct (size_pos (heap s1) r0 P E1p) as (f & Hsize).
  unfold rootDecRef. rewrite (rootDecRef_unlocked_step _ t r0 P s1 E1p).
  change (refs (with_refs (int64_wrap (refs P - 1)) P) >? 0) with false.
  cbv iota. change (int64_wrap (refs P - 1)) with 0.
  set (P0 := with_refs 0 P).
  set (s1' := set_heap (<[r0 := P0]> (heap s1)) s1).
  assert (E1a' : heap s1' !! a = Some Ra).
  { subst s1'. simpl. rewrite lookup_insert_ne by exact Hne. exact E1a. }
  assert (Hcas : cascade (size (heap s1)) P0 s1'
                 = Done tt (set_heap (<[a := with_refs 1 Ra]> (heap s1')) s1')).
  { unfold cascade. cbn [chainedCollection chainedRootNodeLoc P0 P with_refs
                         with_chainedCollection with_chainedRootNodeLoc].
    rewrite Hsize. rewrite (rootDecRef_unlocked_step f t a Ra s1' E1a').
    reflexivity. }
  rewrite Hcas. simpl heap at 1.
  rewrite lookup_insert_ne by congruence.
  subst s1'. simpl heap at 1. rewrite lookup_insert_eq.
  eexists. split; [reflexivity |]. split; [| split].
  - unfold quiescent, reclaimed. simpl.
    rewrite lookup_insert_ne by exact Hne. rewrite lookup_insert_eq.
    repeat split.
  - unfold reclaimed. simpl. rewrite lookup_insert_eq.
    eexists. split; reflexivity.
  - reflexivity.
Qed.

End Reader_claim.

Lemma SetItem_with_reader_witness :
  exists s1 s2 a Ra,
    SetItem (St := mem_store) 0%nat id item_a read_once = Done None s1 /\
    rootDecRef (St := mem_store) 0%nat (Some 0%nat) s1 = Done tt s2 /\
    quiescent s2 a Ra.
Proof.
  destruct (SetItem_with_reader (St := mem_store) 0%nat item_a read_once 0%nat
              (fresh_root NL_empty 2)
              (NL_mem (singleton 0 item_a)) 1%nat)
    as (s1 & a & Ra & P & Hrun & _ & _ & _ & _ & _ & _ & _ & _ & _ & _ & _ & s2 & Hrel & Hq & _).
  - intros [H | [H | [H | [H | H]]]]; vm_compute in H; discriminate.
  - reflexivity.
  - reflexivity.
  - reflexivity.
  - reflexivity.
  - reflexivity.
  - reflexivity.
  - exists s1, s2, a, (with_refs 1 Ra).
    split; [exact Hrun |]. split; [exact Hrel | exact Hq].
Defined.

(** ** MarshalJSON and UnmarshalJSON *)

Section Codec_props.

Context {St : Store}.
Variable t : cptr.
Variable json_Marshal : ploc -> option bytes * option error.

Lemma MarshalJSON_run s r0 R0 :
  c_root s = Some r0 -> heap s !! r0 = Some R0 -> 1 <= refs R0 < 2 ^ 62 ->
  MarshalJSON t json_Marshal s =
  Done (json_Marshal (default ploc_empty (Loc (root R0)))) s.
Proof.
  intros Hr E Hrefs. unfold MarshalJSON.
  apply (reader_run t _ _ s r0 R0 Hr E Hrefs). intros s'.
  change (root (with_refs (refs R0 + 1) R0)) with (root R0).
  destruct (Loc (root R0)) as [l|]; reflexivity.
Qed.

Lemma UnmarshalJSON_run d p u :
  c_root u = None -> json_Unmarshal d = Some p ->
  exists u', UnmarshalJSON t d u = Done None u' /\
             published u' = Some (set_loc NL_empty p).
Proof.
  intros Hr Hj. unfold UnmarshalJSON. rewrite Hj.
  unfold bind, mkRootNodeLoc. simpl mkNodeLoc.
  rewrite rootCAS_nil by exact Hr. simpl.
  eexists. split; [reflexivity |].
  unfold published. simpl. rewrite lookup_insert_eq. reflexivity.
Qed.

(** The root location goes through JSON and back: with a decoder that
    inverts the encoder, what [MarshalJSON] writes for a collection lets
    [UnmarshalJSON] give a collection without a root one whose root
    names the same location.  A root that was never persisted is written
    as the empty location, and comes back as the empty tree. *)
Theorem Marshal_Unmarshal (s u : State) (r0 : rptr) (R0 : rootNodeLoc) (d : bytes) :
  (forall p d', json_Marshal p = (Some d', None) -> json_Unmarshal d' = Some p) ->
  c_root s = Some r0 -> heap s !! r0 = Some R0 -> 1 <= refs R0 < 2 ^ 62 ->
  c_root u = None ->
  json_Marshal (default ploc_empty (Loc (root R0))) = (Some d, None) ->
  MarshalJSON t json_Marshal s = Done (Some d, None) s /\
  exists u' n,
    UnmarshalJSON t d u = Done None u' /\ published u' = Some n /\
    (forall l, Loc (root R0) = Some l -> ploc_eqb l ploc_empty = false ->
               Loc n = Some l) /\
    (Loc (root R0) = None -> n = NL_empty).
Proof.
  intros Hcodec Hr E Hrefs Hu Hd. split.
  - rewrite (MarshalJSON_run s r0 R0 Hr E Hrefs). rewrite Hd. reflexivity.
  - destruct (UnmarshalJSON_run d _ u Hu (Hcodec _ _ Hd)) as (u' & Hrun & Hpub).
    exists u', (set_loc NL_empty (default ploc_empty (Loc (root R0)))).
    split; [exact Hrun |]. split; [exact Hpub |]. split.
    + intros l Hl Hne. rewrite Hl. unfold set_loc. cbn [default Node id].
      rewrite Hne. destruct (readNode l); reflexivity.
    + intros Hl. rewrite Hl. unfold set_loc. cbn [default Node id].
      assert (Hrefl : ploc_eqb ploc_empty ploc_empty = true).
      { unfold ploc_eqb. rewrite !Z.eqb_refl. reflexivity. }
      rewrite Hrefl. reflexivity.
Qed.

End Codec_props.

Lemma two_bytes_inverse p d :
  two_bytes p = (Some d, None) -> of_two_bytes d = Some p.
Proof.
  unfold two_bytes. intros Henc.
  destruct ((Offset p <? 0) || (Length p <? 0)) eqn:Hneg; [discriminate |].
  apply orb_false_iff in Hneg. destruct Hneg as (Ho & Hl).
  apply Z.ltb_ge in Ho. apply Z.ltb_ge in Hl.
  destruct (Byte.of_N (Z.to_N (Offset p))) as [a|] eqn:Ea; [| discriminate].
  destruct (Byte.of_N (Z.to_N (Length p))) as [b|] eqn:Eb; [| discriminate].
  injection Henc as <-. simpl.
  apply Byte.to_of_N in Ea. apply Byte.to_of_N in Eb.
  rewrite Ea, Eb, !Z2N.id by assumption. destruct p; reflexivity.
Qed.

Lemma Marshal_Unmarshal_witness :
  exists u' n,
    UnmarshalJSON (St := byte_store) 0%nat [Byte.x08; Byte.x10] unpublished
    = Done None u' /\
    published u' = Some n /\ Loc n = Some {| Offset := 8; Length := 16 |}.
Proof.
  destruct (Marshal_Unmarshal (St := byte_store) 0%nat two_bytes persisted unpublished
              0%nat
              (fresh_root (NL_cached {| Offset := 8; Length := 16 |}
                             (leaf 0 key_a val_1 5)) 1)
              [Byte.x08; Byte.x10])
    as (_ & u' & n & Hrun & Hpub & Hloc & _).
  - intros p d' Henc. apply two_bytes_inverse. exact Henc.
  - reflexivity.
  - reflexivity.
  - simpl. lia.
  - reflexivity.
  - reflexivity.
  - exists u', n. split; [exact Hrun |]. split; [exact Hpub |].
    apply Hloc; reflexivity.
Defined.

(** ** The visits *)

Section Visit_props.

Context {St : Store}.
Variable t : cptr.
Variable visitNodes :
  nodeLoc -> bytes -> bool -> ItemVisitorEx -> Z ->
  (Z -> node -> bool * nodeLoc * nodeLoc) -> bool * option store_error.

(** A visit walks the tree of the published root from depth 0, ascending
    or descending by its choice function, returns the error of the walk
    and gives its reference back: the state is the one before the call.
    The plain visits are the [Ex] visits with a visitor that drops the
    depth. *)
Theorem visits_give_back (target : bytes) (withValue : bool)
    (visitor : ItemVisitorEx) (v : ItemVisitor)
    (s : State) (r0 : rptr) (R0 : rootNodeLoc) :
  c_root s = Some r0 -> heap s !! r0 = Some R0 -> 1 <= refs R0 < 2 ^ 62 ->
  VisitItemsAscendEx t visitNodes target withValue visitor s
  = Done (of_store (snd (visitNodes (root R0) target withValue visitor 0
                           ascendChoice))) s /\
  VisitItemsDescendEx t visitNodes target withValue visitor s
  = Done (of_store (snd (visitNodes (root R0) target withValue visitor 0
                           descendChoice))) s /\
  VisitItemsAscend t visitNodes target withValue v s
  = Done (of_store (snd (visitNodes (root R0) target withValue
                           (fun i _ => v i) 0 ascendChoice))) s /\
  VisitItemsDescend t visitNodes target withValue v s
  = Done (of_store (snd (visitNodes (root R0) target withValue
                           (fun i _ => v i) 0 descendChoice))) s.
Proof.
  intros Hr E Hrefs.
  assert (HA : forall vis,
    VisitItemsAscendEx t visitNodes target withValue vis s
    = Done (of_store (snd (visitNodes (root R0) target withValue vis 0
                             ascendChoice))) s).
  { intros vis. unfold VisitItemsAscendEx.
    apply (reader_run t _ _ s r0 R0 Hr E Hrefs). intros s'.
    change (root (with_refs (refs R0 + 1) R0)) with (root R0).
    destruct (visitNodes (root R0) target withValue vis 0 ascendChoice).
    reflexivity. }
  assert (HD : forall vis,
    VisitItemsDescendEx t visitNodes target withValue vis s
    = Done (of_store (snd (visitNodes (root R0) target withValue vis 0
                             descendChoice))) s).
  { intros vis. unfold VisitItemsDescendEx.
    apply (reader_run t _ _ s r0 R0 Hr E Hrefs). intros s'.
    change (root (with_refs (refs R0 + 1) R0)) with (root R0).
    destruct (visitNodes (root R0) target withValue vis 0 descendChoice).
    reflexivity. }
  split; [apply HA |]. split; [apply HD |]. split; [apply HA | apply HD].
Qed.

End Visit_props.

Lemma visits_give_back_witness :
  VisitItemsAscend (St := mem_store) 0%nat
    (fun _ _ _ _ _ _ => (true, None)) key_a true (fun _ => true) three
  = Done None three.
Proof.
  destruct (visits_give_back (St := mem_store) 0%nat
              (fun _ _ _ _ _ _ => (true, None)) key_a true
              (fun _ _ => true) (fun _ => true) three 3%nat three_root
              eq_refl eq_refl) as (_ & _ & HA & _).
  - simpl. lia.
  - exact HA.
Defined.

(** ** Set *)

Section Set_props.

Context {St : Store}.
Variable t : cptr.
Variable others : State -> State.

(** [Set] draws its priority from [rand.Int31], which is not negative:
    it never fails on the priority; it rejects its arguments exactly
    when the key is nil, empty or longer than 65535 bytes or the value
    is nil, with the key-or-value error and the state as it was. *)
Theorem Set_validation (key val : option bytes) (rnd : Z) (s : State) :
  0 <= rnd ->
  let bad := key = None \/ len key > 65535 \/ len key = 0 \/ val = None in
  (bad -> Set_ t others key val rnd s = Done (Some ErrKeyValMissingOrTooLong) s) /\
  (~ bad -> forall e s', Set_ t others key val rnd s = Done e s' ->
                         is_validation_error e = false) /\
  (forall s', Set_ t others key val rnd s <> Done (Some ErrPriorityNegative) s').
Proof.
  intros Hrnd bad.
  set (i := {| Key := key; Val := val; Priority := rnd |}).
  assert (Hbad : bad <-> checks i = true).
  { unfold bad, checks, i. simpl.
    rewrite !orb_true_iff, !is_nil_true, Z.gtb_ltb, Z.ltb_lt, Z.eqb_eq.
    intuition lia. }
  assert (Hrej : bad <-> rejected i).
  { unfold rejected, bad, i. simpl. intuition lia. }
  assert (H1 : bad -> Set_ t others key val rnd s
                      = Done (Some ErrKeyValMissingOrTooLong) s).
  { intros Hb. apply Hbad in Hb. unfold Set_, SetItem. fold i. fold (checks i).
    rewrite Hb. reflexivity. }
  assert (H2 : ~ bad -> forall e s', Set_ t others key val rnd s = Done e s' ->
                                     is_validation_error e = false).
  { intros Hn e s' Hrun.
    assert (Hacc : ~ rejected i) by (rewrite <- Hrej; exact Hn).
    apply (post_elim _ _ _ _ _ (SetItem_accepts t others i s Hacc) Hrun). }
  split; [exact H1 |]. split; [exact H2 |].
  intros s' Hrun.
  destruct (checks i) eqn:Hc.
  - rewrite (H1 (proj2 Hbad eq_refl)) in Hrun. discriminate.
  - assert (Hn : ~ bad) by (rewrite Hbad; congruence).
    pose proof (H2 Hn _ _ Hrun) as Hf. discriminate.
Qed.

End Set_props.

Lemma Set_validation_witness :
  Set_ (St := mem_store) 0%nat id (Some []) (Some val_1) 17 init
  = Done (Some ErrKeyValMissingOrTooLong) init.
Proof.
  destruct (Set_validation (St := mem_store) 0%nat id (Some []) (Some val_1) 17 init)
    as (Hbad & _).
  - lia.
  - apply Hbad. right. right. left. reflexivity.
Defined.

(** ** GetItem on a damaged root *)

Section Lookup_errors.

Context {St : Store}.
Variable t : cptr.

(** [GetItem] passes on the error of a root that cannot be read, and
    reports a missing item when the root node has no item or an item
    without a key, whatever the key asked for; no item is returned and
    the state is the one before the call. *)
Theorem GetItem_damaged (key : bytes) (withValue : bool)
    (s : State) (r0 : rptr) (R0 : rootNodeLoc) :
  c_root s = Some r0 -> heap s !! r0 = Some R0 -> 1 <= refs R0 < 2 ^ 62 ->
  (forall l, root R0 = NL_ioerr l ->
             GetItem t key withValue s
             = Done (None, Some (ErrStore (IOError l))) s) /\
  (forall nd l, read (root R0) = (Some nd, None) -> item nd = IL_ioerr l ->
                GetItem t key withValue s
                = Done (None, Some (ErrStore (IOError l))) s) /\
  (forall nd, read (root R0) = (Some nd, None) -> cell_key (item nd) = None ->
              (forall l, item nd <> IL_ioerr l) ->
              GetItem t key withValue s = Done (None, Some ErrMissingItem) s).
Proof.
  intros Hr E Hrefs.
  pose proof (GetItem_run t key withValue s r0 R0 Hr E Hrefs) as Hrun.
  split; [| split].
  - intros l H0. rewrite Hrun, H0. reflexivity.
  - intros nd l Hread Hitem. rewrite Hrun. f_equal.
    destruct (root R0) as [|m|p m|p m|p]; simpl in Hread; try discriminate;
      injection Hread as ->; cbn [GetItem_loop]; rewrite Hitem; reflexivity.
  - intros nd Hread Hkey Hio. rewrite Hrun. f_equal.
    unfold cell_key in Hkey.
    destruct (root R0) as [|m|p m|p m|p]; simpl in Hread; try discriminate;
      injection Hread as ->; cbn [GetItem_loop];
      destruct (item nd) as [|it|p' it|p' it|p'] eqn:Hi; simpl in *;
      try reflexivity; try (rewrite Hkey; reflexivity);
      exfalso; eapply Hio; reflexivity.
Qed.

End Lookup_errors.

Lemma GetItem_damaged_witness :
  GetItem (St := mem_store) 0%nat key_a true keyless
  = Done (None, Some ErrMissingItem) keyless.
Proof.
  destruct (GetItem_damaged (St := mem_store) 0%nat key_a true keyless 0%nat
              (fresh_root
                 (NL_mem (mk_node 0 (IL_mem {| Key := None; Val := Some val_1;
                                               Priority := 1 |})
                            NL_empty NL_empty 1 1)) 1)
              eq_refl eq_refl) as (_ & _ & Hmissing).
  - simpl. lia.
  - eapply Hmissing; [reflexivity | reflexivity | intros l Hl; discriminate].
Defined.

Lemma GetItem_sound_witness :
  exists k, Key item_b = Some k /\ compare (Store := mem_store) key_b k = 0.
Proof.
  destruct (GetItem_sound (St := mem_store) 0%nat key_b true three three item_b None)
    as (_ & Hkey).
  - vm_compute. reflexivity.
  - exact Hkey.
Defined.
